(** * Multi-Signer: Shamir sharing and Schnorr-style signatures over F_p

    A shallow embedding of [crypto/shamir.py], [crypto/schnorr.py] and
    [crypto/threshold_schnorr.py].

    Python integers are [Z]; [a % m] is [a mod m] (both take the sign of
    the divisor, and they agree for every non-zero [m]); [bytes] are
    [list byte]; a [str] is the list of its code points, and
    [str.encode("utf-8")] raises on a surrogate.
    A raised exception is a value of [exn]; functions that can raise
    return a [result].  The calls to [secrets.randbelow] read an explicit
    random source [rng] that is threaded through the callers.

    [PRIME] and [GENERATOR] come from [crypto/config.py] and the digest
    from [Web3.keccak]; neither is among the sources, so all three are
    parameters of the development.  [PRIME] is a non-zero modulus
    throughout; [PRIME - 2], the one modulus that a prime [PRIME] can make
    zero, raises [ZeroDivisionError] explicitly in [_det_k]. *)

From Stdlib Require Import Bool String Ascii.
From Stdlib.Strings Require Import Byte.
From Stdlib Require Import ZArith List Lia.
From Stdlib Require Import Znumtheory Zcong Morphisms Setoid Permutation.
From Stdlib Require Import DecimalString.
From Stdlib Require Zmod.
Import ListNotations.
Local Open Scope string_scope.
Local Open Scope list_scope.
Local Open Scope Z_scope.

(** ** Exceptions and results *)

Inductive exn : Type :=
| ValueError (msg : string)
| OverflowError (msg : string)
| ZeroDivisionError (msg : string)
| UnicodeEncodeError (encoding : string) (start stop : nat) (reason : string).

Inductive result (A : Type) : Type :=
| OK (a : A)
| Raise (e : exn).
Arguments OK {A} a.
Arguments Raise {A} e.

Definition bind {A B : Type} (c : result A) (k : A -> result B) : result B :=
  match c with
  | OK a => k a
  | Raise e => Raise e
  end.

Declare Scope py_scope.
Delimit Scope py_scope with py.
Notation "x <- c ;; k" := (bind c (fun x => k))
  (at level 61, c at next level, right associativity) : py_scope.
Notation "' p <- c ;; k" := (bind c (fun x => let 'p := x in k))
  (at level 61, p pattern, c at next level, right associativity) : py_scope.

(** ** The random source behind [secrets.randbelow] *)

Record rng : Type := mkRng { draws : nat -> Z; cursor : nat }.

Definition M (A : Type) : Type := rng -> result A * rng.

Definition retM {A : Type} (a : A) : M A := fun g => (OK a, g).
Definition raiseM {A : Type} (e : exn) : M A := fun g => (Raise e, g).
Definition lift {A : Type} (c : result A) : M A := fun g => (c, g).
Definition bindM {A B : Type} (c : M A) (k : A -> M B) : M B :=
  fun g =>
    match c g with
    | (OK a, g') => k a g'
    | (Raise e, g') => (Raise e, g')
    end.

Declare Scope rnd_scope.
Delimit Scope rnd_scope with rnd.
Notation "x <~ c ;; k" := (bindM c (fun x => k))
  (at level 61, c at next level, right associativity) : rnd_scope.
Notation "' p <~ c ;; k" := (bindM c (fun x => let 'p := x in k))
  (at level 61, p pattern, c at next level, right associativity) : rnd_scope.

(** [secrets.randbelow(n)]: an integer in [[0, n)]; [ValueError] when
    [n <= 0]. *)
Definition randbelow (n : Z) : M Z :=
  fun g =>
    if n <=? 0 then (Raise (ValueError "Upper bound must be positive."), g)
    else (OK (draws g (cursor g) mod n), mkRng (draws g) (S (cursor g))).

(** ** Built-ins *)

(** [pow(b, e, m)].  A negative exponent inverts the base first. *)
Definition pow3 (b e m : Z) : result Z :=
  if m =? 0 then Raise (ValueError "pow() 3rd argument cannot be 0")
  else if e <? 0 then
    if Z.gcd b m =? 1 then OK (Z.invmod b m ^ (- e) mod m)
    else Raise (ValueError "base is not invertible for the given modulus")
  else OK (b ^ e mod m).

Definition byte_of_Z (v : Z) : byte :=
  match Byte.of_N (Z.to_N v) with
  | Some b => b
  | None => x00
  end.

Definition Z_of_byte (b : byte) : Z := Z.of_N (Byte.to_N b).

Fixpoint be_bytes (len : nat) (v : Z) : list byte :=
  match len with
  | O => []
  | S len' => be_bytes len' (v / 256) ++ [byte_of_Z (v mod 256)]
  end.

(** [v.to_bytes(len, "big")] *)
Definition to_bytes (v : Z) (len : nat) : result (list byte) :=
  if v <? 0 then Raise (OverflowError "can't convert negative int to unsigned")
  else if 256 ^ Z.of_nat len <=? v then Raise (OverflowError "int too big to convert")
  else OK (be_bytes len v).

(** [int.from_bytes(bs, "big")] *)
Definition from_bytes (bs : list byte) : Z :=
  fold_left (fun acc b => acc * 256 + Z_of_byte b) bs 0.

Definition str_of_int (z : Z) : string := NilZero.string_of_int (Z.to_int z).

(** The f-string [f"Need at least {require_t} shares; got {len(shares)}"] *)
Definition need_at_least (require_t got : Z) : string :=
  ("Need at least " ++ str_of_int require_t ++ " shares; got " ++ str_of_int got)%string.

Definition len {A : Type} (l : list A) : Z := Z.of_nat (length l).

Definition enumerate {A : Type} (l : list A) : list (nat * A) :=
  combine (seq 0 (length l)) l.

(** [range(lo, hi)] *)
Definition range (lo hi : Z) : list Z :=
  map (fun i => lo + Z.of_nat i) (seq 0 (Z.to_nat (hi - lo))).

(** ** Text

    A [str] is a sequence of code points, each at most [0x10FFFF].  The
    surrogates [U+D800 .. U+DFFF] are code points a [str] can hold and
    that UTF-8 cannot encode. *)
Definition str : Type := list N.

(** The [str] of a literal whose characters are below [U+0100]. *)
Definition text (s : string) : str := map N_of_ascii (list_ascii_of_string s).

Definition is_surrogate (c : N) : bool := ((0xD800 <=? c) && (c <=? 0xDFFF))%N.

Definition utf8_char (c : N) : list byte :=
  let c := Z.of_N c in
  if c <? 0x80 then [byte_of_Z c]
  else if c <? 0x800 then
    [byte_of_Z (Z.lor 0xC0 (Z.shiftr c 6));
     byte_of_Z (Z.lor 0x80 (Z.land c 0x3F))]
  else if c <? 0x10000 then
    [byte_of_Z (Z.lor 0xE0 (Z.shiftr c 12));
     byte_of_Z (Z.lor 0x80 (Z.land (Z.shiftr c 6) 0x3F));
     byte_of_Z (Z.lor 0x80 (Z.land c 0x3F))]
  else
    [byte_of_Z (Z.lor 0xF0 (Z.shiftr c 18));
     byte_of_Z (Z.lor 0x80 (Z.land (Z.shiftr c 12) 0x3F));
     byte_of_Z (Z.lor 0x80 (Z.land (Z.shiftr c 6) 0x3F));
     byte_of_Z (Z.lor 0x80 (Z.land c 0x3F))].

Definition utf8 (s : str) : list byte := flat_map utf8_char s.

Fixpoint first_surrogate (s : str) : option nat :=
  match s with
  | [] => None
  | c :: s' => if is_surrogate c then Some O else option_map S (first_surrogate s')
  end.

Fixpoint surrogate_run (s : str) : nat :=
  match s with
  | [] => O
  | c :: s' => if is_surrogate c then S (surrogate_run s') else O
  end.

(** [s.encode("utf-8")].  The error carries the span of the first run of
    surrogates. *)
Definition utf8_encode (s : str) : result (list byte) :=
  match first_surrogate s with
  | Some start =>
      Raise (UnicodeEncodeError "utf-8" start
               (start + surrogate_run (skipn start s)) "surrogates not allowed")
  | None => OK (utf8 s)
  end.

(** The strings that have a UTF-8 encoding. *)
Definition encodable (s : str) : Prop := first_surrogate s = None.

Section MultiSigner.

Variable PRIME : Z.
Variable GENERATOR : Z.
Variable keccak : list byte -> list byte.

(** ** crypto/shamir.py *)

Definition _eval_poly (coeffs : list Z) (x : Z) : Z :=
  fold_left (fun res a => (res * x + a) mod PRIME) (rev coeffs) 0.

(** The list comprehension [[secrets.randbelow(PRIME - 1) + 1 for _ in range(k)]]. *)
Fixpoint random_coeffs (k : nat) : M (list Z) :=
  match k with
  | O => retM []
  | S k' =>
      (v <~ randbelow (PRIME - 1) ;;
       rest <~ random_coeffs k' ;;
       retM ((v + 1) :: rest))%rnd
  end.

Definition generate_shares (secret n t : Z) : M (list (Z * Z)) :=
  if negb ((1 <=? t) && (t <=? n)) then
    raiseM (ValueError "Require 1 <= t <= n.")
  else if negb ((0 <? secret) && (secret <? PRIME)) then
    raiseM (ValueError "secret must be in 1..PRIME-1.")
  else
    (tail <~ random_coeffs (Z.to_nat (t - 1)) ;;
     let coeffs := secret :: tail in
     retM (map (fun x => (x, _eval_poly coeffs x)) (range 1 (n + 1))))%rnd.

(** [reduce(lambda a, b: (a * b) % PRIME, vals, 1)] *)
Definition PI (vals : list Z) : Z :=
  fold_left (fun a b => (a * b) mod PRIME) vals 1.

(** [(f(xj) for j, xj in enumerate(x_s) if j != i)] *)
Definition others (f : Z -> Z) (i : nat) (x_s : list Z) : list Z :=
  map (fun jx => f (snd jx))
      (filter (fun jx => negb (Nat.eqb (fst jx) i)) (enumerate x_s)).

Definition lagrange_step (x_s : list Z) (acc : result Z) (ixy : nat * (Z * Z))
  : result Z :=
  (result <- acc ;;
   let '(i, (xi, yi)) := ixy in
   let denom := PI (others (fun xj => (xi - xj) mod PRIME) i x_s) in
   let numer := PI (others (fun xj => (- xj) mod PRIME) i x_s) in
   inv_denom <- pow3 denom (PRIME - 2) PRIME ;;
   let li0 := (numer * inv_denom) mod PRIME in
   OK ((result + yi * li0) mod PRIME))%py.

Definition _lagrange_interpolation_at_zero (x_s y_s : list Z) : result Z :=
  if match x_s with [] => true | _ => false end
     || match y_s with [] => true | _ => false end
     || negb (Nat.eqb (length x_s) (length y_s))
  then Raise (ValueError "Invalid points for interpolation.")
  else if existsb (fun x => x =? 0) x_s
          || negb (Nat.eqb (length (nodup Z.eq_dec x_s)) (length x_s))
  then Raise (ValueError "x-coordinates must be distinct and non-zero.")
  else fold_left (lagrange_step x_s) (enumerate (combine x_s y_s)) (OK 0).

Definition reconstruct_secret (shares : list (Z * Z)) (require_t : option Z)
  : result Z :=
  let too_few :=
    match require_t with
    | Some rt => len shares <? rt
    | None => false
    end in
  if too_few then
    Raise (ValueError (need_at_least (match require_t with Some rt => rt | None => 0 end)
                                     (len shares)))
  else
    match shares with
    | [] => Raise (ValueError "No shares provided.")
    | _ => _lagrange_interpolation_at_zero (map fst shares) (map snd shares)
    end.

(** ** crypto/schnorr.py *)

(** [Web3.keccak(text=message)]: the digest of [message.encode("utf-8")]. *)
Definition keccak_message (message : str) : result (list byte) :=
  (data <- utf8_encode message ;;
   OK (keccak data))%py.

Definition keccak_challenge (r : Z) (message : str) : result (Z * list byte) :=
  if negb ((0 <? r) && (r <? PRIME)) then
    Raise (ValueError "r must be in range 1..PRIME-1")
  else
    (msg_hash <- keccak_message message ;;
     r_bytes <- to_bytes r 32 ;;
     let h_bytes := keccak (r_bytes ++ msg_hash) in
     let h := from_bytes h_bytes mod PRIME in
     OK (h, msg_hash))%py.

Definition _det_k (priv : Z) (msg_hash : list byte) : result Z :=
  (priv_bytes <- to_bytes priv 32 ;;
   let seed := keccak (priv_bytes ++ msg_hash) in
   if PRIME - 2 =? 0 then Raise (ZeroDivisionError "integer modulo by zero")
   else OK (from_bytes seed mod (PRIME - 2) + 1))%py.

Definition generate_keypair : M (Z * Z) :=
  (v <~ randbelow (PRIME - 2) ;;
   let priv := v + 1 in
   pub <~ lift (pow3 GENERATOR priv PRIME) ;;
   retM (priv, pub))%rnd.

Definition sign_message (priv : Z) (message : str) (deterministic : bool)
  : M (Z * Z) :=
  if negb ((0 <? priv) && (priv <? PRIME)) then
    raiseM (ValueError "priv must be in range 1..PRIME-1")
  else
    ('(_h_tmp, msg_hash) <~ lift (keccak_challenge 1 message) ;;
     k <~ (if deterministic then lift (_det_k priv msg_hash)
           else (v <~ randbelow (PRIME - 2) ;; retM (v + 1))) ;;
     r <~ lift (pow3 GENERATOR k PRIME) ;;
     '(h, _) <~ lift (keccak_challenge r message) ;;
     let s := (k + h * priv) mod (PRIME - 1) in
     retM (r, s))%rnd.

Definition verify_signature (pub : Z) (message : str) (r s : Z) : result bool :=
  if negb ((0 <? pub) && (pub <? PRIME)) then OK false
  else if negb ((0 <? r) && (r <? PRIME)) then OK false
  else if negb ((0 <? s) && (s <? PRIME - 1)) then OK false
  else
    ('(h, _) <- keccak_challenge r message ;;
     left <- pow3 GENERATOR s PRIME ;;
     pub_h <- pow3 pub h PRIME ;;
     let right := (r * pub_h) mod PRIME in
     OK (left =? right))%py.

(** ** crypto/threshold_schnorr.py *)

Definition threshold_sign (shares : list (Z * Z)) (message : str)
    (deterministic : bool) (require_t : option Z) : M (Z * Z * list byte) :=
  let too_few :=
    match require_t with
    | Some rt => len shares <? rt
    | None => false
    end in
  if too_few then
    raiseM (ValueError (need_at_least (match require_t with Some rt => rt | None => 0 end)
                                      (len shares)))
  else
    (priv <~ lift (reconstruct_secret shares None) ;;
     if negb ((0 <? priv) && (priv <? PRIME)) then
       raiseM (ValueError "Reconstructed secret out of range.")
     else
       '(r, s) <~ sign_message priv message deterministic ;;
       '(_, msg_hash) <~ lift (keccak_challenge r message) ;;
       retM (r, s, msg_hash))%rnd.

Definition pubkey_from_secret (secret : Z) : result Z :=
  if negb ((0 <? secret) && (secret <? PRIME)) then
    Raise (ValueError "secret must be in 1..PRIME-1.")
  else pow3 GENERATOR secret PRIME.

End MultiSigner.

(** ** Keccak-256

    The digest computed by [Web3.keccak]: the Keccak-f[1600] sponge with
    rate 136 bytes and the original [0x01 .. 0x80] padding.  It is used to
    run the definitions on concrete inputs; the general theorems hold for
    every digest function. *)

Module Keccak.

Definition mask64 : Z := 18446744073709551615.

Definition rotl64 (v n : Z) : Z :=
  Z.lor (Z.land (Z.shiftl v n) mask64) (Z.shiftr v (64 - n)).

Definition round_constants : list Z :=
  [0x0000000000000001; 0x0000000000008082; 0x800000000000808A;
   0x8000000080008000; 0x000000000000808B; 0x0000000080000001;
   0x8000000080008081; 0x8000000000008009; 0x000000000000008A;
   0x0000000000000088; 0x0000000080008009; 0x000000008000000A;
   0x000000008000808B; 0x800000000000008B; 0x8000000000008089;
   0x8000000000008003; 0x8000000000008002; 0x8000000000000080;
   0x000000000000800A; 0x800000008000000A; 0x8000000080008081;
   0x8000000000008080; 0x0000000080000001; 0x8000000080008008].

(** Rotation offsets, indexed by [x + 5 * y]. *)
Definition rotation_offsets : list Z :=
  [ 0;  1; 62; 28; 27;
   36; 44;  6; 55; 20;
    3; 10; 43; 25; 39;
   41; 45; 15; 21;  8;
   18;  2; 61; 56; 14].

Definition lane (st : list Z) (x y : nat) : Z := nth (x + 5 * y) st 0.

Definition theta (st : list Z) : list Z :=
  let C x := fold_left Z.lxor (map (lane st x) (seq 0 5)) 0 in
  let D x := Z.lxor (C ((x + 4) mod 5)%nat) (rotl64 (C ((x + 1) mod 5)%nat) 1) in
  map (fun i => Z.lxor (nth i st 0) (D (i mod 5)%nat)) (seq 0 25).

Definition rho_pi (st : list Z) : list Z :=
  map (fun i =>
         let X := (i mod 5)%nat in
         let Y := (i / 5)%nat in
         let x := ((X + 3 * Y) mod 5)%nat in
         rotl64 (lane st x X) (nth (x + 5 * X) rotation_offsets 0))
      (seq 0 25).

Definition chi (st : list Z) : list Z :=
  map (fun i =>
         let X := (i mod 5)%nat in
         let Y := (i / 5)%nat in
         Z.lxor (lane st X Y)
                (Z.land (Z.lxor (lane st ((X + 1) mod 5) Y) mask64)
                        (lane st ((X + 2) mod 5) Y)))
      (seq 0 25).

Definition iota (rc : Z) (st : list Z) : list Z :=
  match st with
  | [] => []
  | a :: rest => Z.lxor a rc :: rest
  end.

Definition permute (st : list Z) : list Z :=
  fold_left (fun st rc => iota rc (chi (rho_pi (theta st)))) round_constants st.

Definition pad (msg : list byte) : list Z :=
  let body := map Z_of_byte msg ++ [1] in
  let fill := ((136 - length body mod 136) mod 136)%nat in
  let padded := body ++ repeat 0 fill in
  firstn (length padded - 1) padded ++ [Z.lor (last padded 0) 128].

Definition le_lane (bs : list Z) : Z :=
  fold_right (fun b acc => b + 256 * acc) 0 bs.

Fixpoint chunks (k : nat) (count : nat) (l : list Z) : list (list Z) :=
  match count with
  | O => []
  | S count' => firstn k l :: chunks k count' (skipn k l)
  end.

Definition absorb (st : list Z) (block : list Z) : list Z :=
  let lanes := map le_lane (chunks 8 17 block) ++ repeat 0 8 in
  permute (map (fun sl => Z.lxor (fst sl) (snd sl)) (combine st lanes)).

Definition le_bytes (v : Z) : list byte :=
  map (fun i => byte_of_Z (Z.shiftr v (8 * Z.of_nat i) mod 256)) (seq 0 8).

Definition keccak256 (msg : list byte) : list byte :=
  let p := pad msg in
  let st := fold_left absorb (chunks 136 (length p / 136) p) (repeat 0 25) in
  flat_map le_bytes (firstn 4 st).

End Keccak.

Definition const_rng (v : Z) : rng := mkRng (fun _ => v) 0.

Definition byte_values (bs : list byte) : list Z := map Z_of_byte bs.

(** ** Polynomials and congruences used in the proofs *)

Definition eqm (m a b : Z) : Prop := a mod m = b mod m.

(** Coefficient lists, constant term first, as [coeffs] in [generate_shares]. *)
Fixpoint peval (cs : list Z) (z : Z) : Z :=
  match cs with
  | [] => 0
  | c :: q => c + z * peval q z
  end.

Fixpoint padd (a b : list Z) : list Z :=
  match a, b with
  | [], _ => b
  | _, [] => a
  | x :: a', y :: b' => (x + y) :: padd a' b'
  end.

Definition pscale (c : Z) (a : list Z) : list Z := map (Z.mul c) a.

(** [(X - a) * q] *)
Definition pmul_lin (a : Z) (q : list Z) : list Z :=
  padd (0 :: q) (pscale (- a) q).

Definition pprod (roots : list Z) : list Z := fold_right pmul_lin [1] roots.

(** The quotient of [cs] by [X - a]. *)
Fixpoint quot (a : Z) (cs : list Z) : list Z :=
  match cs with
  | [] => []
  | _ :: q =>
      match q with
      | [] => []
      | _ => peval q a :: quot a q
      end
  end.

Definition zprod (l : list Z) : Z := fold_right Z.mul 1 l.

(** [enumerate] started at index [k]. *)
Definition enum_from {A : Type} (k : nat) (l : list A) : list (nat * A) :=
  combine (seq k (length l)) l.

Section LagrangeModel.

Variable PRIME : Z.

(** The inverse that the loop computes for the point [x], the other
    x-coordinates being [pre] (before it) and [suf] (after it). *)
Definition inv_denom_of (pre : list Z) (x : Z) (suf : list Z) : Z :=
  PI PRIME (map (fun xj => (x - xj) mod PRIME) (pre ++ suf)) ^ (PRIME - 2) mod PRIME.

Definition li0_of (pre : list Z) (x : Z) (suf : list Z) : Z :=
  (PI PRIME (map (fun xj => (- xj) mod PRIME) (pre ++ suf)) * inv_denom_of pre x suf)
    mod PRIME.

(** The loop of [_lagrange_interpolation_at_zero], by position. *)
Fixpoint lag_run (pre : list Z) (pts : list (Z * Z)) (acc : Z) : Z :=
  match pts with
  | [] => acc
  | (x, y) :: rest =>
      lag_run (pre ++ [x]) rest ((acc + y * li0_of pre x (map fst rest)) mod PRIME)
  end.

(** The interpolating polynomial whose value at zero the loop accumulates. *)
Fixpoint lag_poly (pre : list Z) (pts : list (Z * Z)) : list Z :=
  match pts with
  | [] => []
  | (x, y) :: rest =>
      padd (pscale (y * inv_denom_of pre x (map fst rest))
                   (pprod (pre ++ map fst rest)))
           (lag_poly (pre ++ [x]) rest)
  end.

End LagrangeModel.

(** ** The error kinds of the design, as the code raises them

    Every failure of the Shamir layer is a [ValueError]; the kinds are
    told apart by the message. *)

Definition InsufficientSharesError (e : exn) : Prop :=
  exists require_t got, e = ValueError (need_at_least require_t got).

Definition EmptyInputError (e : exn) : Prop :=
  e = ValueError "No shares provided.".

Definition DuplicateOrZeroCoordinateError (e : exn) : Prop :=
  e = ValueError "x-coordinates must be distinct and non-zero.".

(** A random source that replays the given draws. *)
Definition list_rng (l : list Z) : rng := mkRng (fun i => nth i l 0) 0.

(** ** The nonce and the challenge of a signing run *)

Section SigningModel.

Variable PRIME : Z.
Variable keccak : list byte -> list byte.

(** The nonce [k] that [sign_message] uses: derived from the key and the
    message, or one more than the next draw below [PRIME - 2]. *)
Definition nonce_of (deterministic : bool) (priv : Z) (message : str) (g : rng) : Z :=
  if deterministic then
    from_bytes (keccak (be_bytes 32 priv ++ keccak (utf8 message)))
      mod (PRIME - 2) + 1
  else draws g (cursor g) mod (PRIME - 2) + 1.

(** The challenge [h] that [keccak_challenge] returns for an [r] in range. *)
Definition challenge_of (r : Z) (message : str) : Z :=
  from_bytes (keccak (be_bytes 32 r ++ keccak (utf8 message))) mod PRIME.

End SigningModel.

(** A decision procedure for primality of small moduli. *)
Definition prime_check (p : Z) : bool :=
  (1 <? p) && forallb (fun n => negb (p mod n =? 0)) (range 2 p).

(** ** scripts/verify_on_chain.py: the digest read back from an artifact

    The hexadecimal text is a [string] of characters below 256. *)

(** [Py_ISSPACE]: space, tab, line feed, vertical tab, form feed, return. *)
Definition is_space (c : ascii) : bool :=
  let n := nat_of_ascii c in
  Nat.eqb n 32 || (Nat.leb 9 n && Nat.leb n 13).

(** The value of a hexadecimal digit, in either case. *)
Definition digit_value (c : ascii) : option nat :=
  let n := nat_of_ascii c in
  if Nat.leb 48 n && Nat.leb n 57 then Some (n - 48)%nat
  else if Nat.leb 97 n && Nat.leb n 102 then Some (n - 87)%nat
  else if Nat.leb 65 n && Nat.leb n 70 then Some (n - 55)%nat
  else None.

Definition hex_digit (v : nat) : ascii :=
  ascii_of_nat (if Nat.ltb v 10 then 48 + v else 87 + v).

(** [bs.hex()] *)
Fixpoint hex (bs : list byte) : string :=
  match bs with
  | [] => EmptyString
  | b :: rest =>
      let n := N.to_nat (Byte.to_N b) in
      String (hex_digit (n / 16)) (String (hex_digit (n mod 16)) (hex rest))
  end.

Definition fromhex_error (pos : nat) : exn :=
  ValueError ("non-hexadecimal number found in fromhex() arg at position "
              ++ str_of_int (Z.of_nat pos))%string.

Fixpoint first_non_ascii (pos : nat) (s : string) : option nat :=
  match s with
  | EmptyString => None
  | String c rest =>
      if Nat.leb 128 (nat_of_ascii c) then Some pos
      else first_non_ascii (S pos) rest
  end.

(** The loop of [bytes.fromhex]: white space is skipped between bytes, and
    each byte is two adjacent hexadecimal digits. *)
Fixpoint fromhex_from (pos : nat) (s : string) : result (list byte) :=
  match s with
  | EmptyString => OK []
  | String c rest =>
      if is_space c then fromhex_from (S pos) rest
      else
        match digit_value c with
        | None => Raise (fromhex_error pos)
        | Some top =>
            match rest with
            | EmptyString => Raise (fromhex_error (S pos))
            | String c2 rest2 =>
                match digit_value c2 with
                | None => Raise (fromhex_error (S pos))
                | Some bot =>
                    (tail <- fromhex_from (S (S pos)) rest2 ;;
                     OK (byte_of_Z (Z.of_nat (16 * top + bot)) :: tail))%py
                end
            end
        end
  end.

(** [bytes.fromhex(s)] *)
Definition fromhex (s : string) : result (list byte) :=
  match first_non_ascii 0 s with
  | Some pos => Raise (fromhex_error pos)
  | None => fromhex_from 0 s
  end.

(** [s[2:]] *)
Definition drop2 (s : string) : string :=
  match s with
  | String _ (String _ rest) => rest
  | _ => EmptyString
  end.

Definition to_bytes32 (hexstr : string) : result (list byte) :=
  let hexstr := if prefix "0x" hexstr then drop2 hexstr else hexstr in
  (b <- fromhex hexstr ;;
   if negb (Nat.eqb (length b) 32) then
     Raise (ValueError "msg_hash must be 32 bytes (keccak256).")
   else OK b)%py.

(** The ["msg_hash"] field that [scripts/sign_and_verify_demo.py] writes:
    ["0x" + msg_hash.hex()]. *)
Definition artifact_msg_hash (msg_hash : list byte) : string :=
  ("0x" ++ hex msg_hash)%string.

(** ** Further notions used in the proofs *)

(** [a0 + a1*x + ... + a_{t-1}*x^(t-1)], the polynomial that the
    docstring of [_eval_poly] names. *)
Definition poly_sum (coeffs : list Z) (x : Z) : Z :=
  fold_right Z.add 0
    (map (fun ia => snd ia * x ^ Z.of_nat (fst ia)) (enumerate coeffs)).

(** Shares added and scaled value by value. *)
Definition add_shares (s1 s2 : list (Z * Z)) : list (Z * Z) :=
  map (fun pq => (fst (fst pq), snd (fst pq) + snd (snd pq))) (combine s1 s2).

Definition scale_shares (c : Z) (s : list (Z * Z)) : list (Z * Z) :=
  map (fun xy => (fst xy, c * snd xy)) s.

(** The sum that the interpolation loop accumulates, before reduction. *)
Fixpoint lag_sum (PRIME : Z) (pre : list Z) (pts : list (Z * Z)) : Z :=
  match pts with
  | [] => 0
  | (x, y) :: rest =>
      y * li0_of PRIME pre x (map fst rest) + lag_sum PRIME (pre ++ [x]) rest
  end.

(** The share value stored at [x], if any. *)
Definition value_at (pts : list (Z * Z)) (x : Z) : Z :=
  match find (fun xy => fst xy =? x) pts with
  | Some xy => snd xy
  | None => 0
  end.

(** A decision procedure for "[g] has order [p - 1] modulo [p]". *)
Definition order_check (p g : Z) : bool :=
  forallb (fun e => negb (g ^ e mod p =? 1)) (range 1 (p - 1)).

(** * Facts about the built-ins *)

Lemma in_range (lo hi x : Z) : In x (range lo hi) <-> lo <= x < hi.
Proof.
  unfold range. rewrite in_map_iff. split.
  - intros (i & <- & Hi). apply in_seq in Hi. lia.
  - intros H. exists (Z.to_nat (x - lo)). split; [lia|].
    apply in_seq. lia.
Qed.

Lemma prime_check_sound (p : Z) : prime_check p = true -> Z.prime p.
Proof.
  unfold prime_check. intros H. apply andb_prop in H as [H1 H2].
  apply Z.ltb_lt in H1. split; [assumption|].
  intros n Hn Hdiv. rewrite forallb_forall in H2.
  specialize (H2 n (proj2 (in_range 2 p n) ltac:(lia))).
  apply negb_true_iff, Z.eqb_neq in H2. apply H2.
  apply Z.mod_divide; [lia | assumption].
Qed.

Lemma Z_of_byte_of_Z (v : Z) : 0 <= v < 256 -> Z_of_byte (byte_of_Z v) = v.
Proof.
  intros Hv. unfold Z_of_byte, byte_of_Z.
  destruct (Byte.of_N (Z.to_N v)) as [b|] eqn:E.
  - apply Byte.to_of_N in E. rewrite E. lia.
  - apply Byte.of_N_None_iff in E. lia.
Qed.

Lemma length_be_bytes (n : nat) (v : Z) : length (be_bytes n v) = n.
Proof.
  revert v. induction n as [|n IH]; intros v; simpl; [reflexivity|].
  rewrite length_app, IH. simpl. lia.
Qed.

Lemma from_bytes_snoc (bs : list byte) (b : byte) :
  from_bytes (bs ++ [b]) = from_bytes bs * 256 + Z_of_byte b.
Proof. unfold from_bytes. rewrite fold_left_app. reflexivity. Qed.

Lemma from_bytes_be_bytes (n : nat) (v : Z) :
  0 <= v -> from_bytes (be_bytes n v) = v mod 256 ^ Z.of_nat n.
Proof.
  revert v. induction n as [|n IH]; intros v Hv.
  - simpl. rewrite Z.mod_1_r. reflexivity.
  - cbn [be_bytes]. rewrite from_bytes_snoc, IH by (apply Z.div_pos; lia).
    rewrite Z_of_byte_of_Z by (apply Z.mod_pos_bound; lia).
    rewrite Nat2Z.inj_succ, Z.pow_succ_r by lia.
    rewrite Z.rem_mul_r by lia. lia.
Qed.

Lemma to_bytes_ok (v : Z) (n : nat) :
  0 <= v < 256 ^ Z.of_nat n ->
  to_bytes v n = OK (be_bytes n v) /\
  length (be_bytes n v) = n /\ from_bytes (be_bytes n v) = v.
Proof.
  intros Hv. unfold to_bytes.
  destruct (Z.ltb_spec v 0); [lia|].
  destruct (Z.leb_spec (256 ^ Z.of_nat n) v); [lia|].
  repeat split; [apply length_be_bytes|].
  rewrite from_bytes_be_bytes, Z.mod_small; lia.
Qed.

Lemma Z_of_byte_range (b : byte) : 0 <= Z_of_byte b < 256.
Proof.
  unfold Z_of_byte. pose proof (Byte.to_N_bounded b) as H. lia.
Qed.

Lemma byte_of_Z_of_byte (b : byte) : byte_of_Z (Z_of_byte b) = b.
Proof.
  unfold byte_of_Z, Z_of_byte. rewrite N2Z.id, Byte.of_to_N. reflexivity.
Qed.

(** A byte string is the big-endian encoding of its value at its length. *)
Lemma be_bytes_from_bytes (bs : list byte) :
  be_bytes (length bs) (from_bytes bs) = bs.
Proof.
  induction bs as [|b bs IH] using rev_ind; [reflexivity|].
  rewrite length_app, Nat.add_1_r, from_bytes_snoc. cbn [be_bytes].
  pose proof (Z_of_byte_range b) as Hb.
  replace ((from_bytes bs * 256 + Z_of_byte b) / 256) with (from_bytes bs)
    by (apply Z.div_unique with (r := Z_of_byte b); lia).
  replace ((from_bytes bs * 256 + Z_of_byte b) mod 256) with (Z_of_byte b)
    by (apply Z.mod_unique with (q := from_bytes bs); lia).
  rewrite IH, byte_of_Z_of_byte. reflexivity.
Qed.

Lemma pow3_nonneg (b e m : Z) :
  m <> 0 -> 0 <= e -> pow3 b e m = OK (b ^ e mod m).
Proof.
  intros Hm He. unfold pow3.
  destruct (Z.eqb_spec m 0); [contradiction|].
  destruct (Z.ltb_spec e 0); [lia|reflexivity].
Qed.

Lemma range_check_true (lo v hi : Z) :
  negb ((lo <? v) && (v <? hi)) = false <-> lo < v < hi.
Proof.
  rewrite negb_false_iff, andb_true_iff, !Z.ltb_lt. reflexivity.
Qed.

Lemma range_check_false (lo v hi : Z) :
  negb ((lo <? v) && (v <? hi)) = true <-> ~ (lo < v < hi).
Proof.
  rewrite <- range_check_true. destruct (negb _); intuition congruence.
Qed.

(** Test vectors: the digests of the empty message, of ["abc"] and of a
    message that spans two blocks. *)
Example keccak256_empty :
  byte_values (Keccak.keccak256 []) =
  [0xc5; 0xd2; 0x46; 0x01; 0x86; 0xf7; 0x23; 0x3c; 0x92; 0x7e; 0x7d; 0xb2;
   0xdc; 0xc7; 0x03; 0xc0; 0xe5; 0x00; 0xb6; 0x53; 0xca; 0x82; 0x27; 0x3b;
   0x7b; 0xfa; 0xd8; 0x04; 0x5d; 0x85; 0xa4; 0x70].
Proof. vm_compute. reflexivity. Qed.

Example keccak256_abc :
  byte_values (Keccak.keccak256 (list_byte_of_string "abc")) =
  [0x4e; 0x03; 0x65; 0x7a; 0xea; 0x45; 0xa9; 0x4f; 0xc7; 0xd4; 0x7b; 0xa8;
   0x26; 0xc8; 0xd6; 0x67; 0xc0; 0xd1; 0xe6; 0xe3; 0x3a; 0x64; 0xa0; 0x36;
   0xec; 0x44; 0xf5; 0x8f; 0xa1; 0x2d; 0x6c; 0x45].
Proof. vm_compute. reflexivity. Qed.

Example keccak256_two_blocks :
  byte_values (Keccak.keccak256 (repeat "a"%byte 200)) =
  [0x96; 0xea; 0x54; 0x06; 0x1d; 0xef; 0x93; 0x6c; 0x4b; 0xe9; 0x0b; 0x51;
   0x89; 0x92; 0xfd; 0xc6; 0xf1; 0x2f; 0x53; 0x50; 0x68; 0xa2; 0x56; 0x22;
   0x9a; 0xca; 0x54; 0x26; 0x7b; 0x4d; 0x08; 0x4d].
Proof. vm_compute. reflexivity. Qed.

(** A message that leaves room for a single padding byte. *)
Example keccak256_full_block :
  byte_values (Keccak.keccak256 (repeat "a"%byte 135)) =
  [0x34; 0x36; 0x7d; 0xc2; 0x48; 0xbb; 0xd8; 0x32; 0xf4; 0xe3; 0xe6; 0x9d;
   0xfa; 0xac; 0x2f; 0x92; 0x63; 0x8b; 0xd0; 0xbb; 0xd1; 0x8f; 0x29; 0x12;
   0xba; 0x4e; 0xf4; 0x54; 0x91; 0x9c; 0xf4; 0x46].
Proof. vm_compute. reflexivity. Qed.

(** * Encoding a message *)

Lemma utf8_encode_encodable (s : str) :
  encodable s -> utf8_encode s = OK (utf8 s).
Proof. unfold encodable, utf8_encode. intros ->. reflexivity. Qed.

Lemma utf8_encode_unencodable (s : str) :
  ~ encodable s ->
  exists start stop,
    utf8_encode s =
      Raise (UnicodeEncodeError "utf-8" start stop "surrogates not allowed").
Proof.
  unfold encodable, utf8_encode. intros H.
  destruct (first_surrogate s) as [start|]; [eauto|congruence].
Qed.

Lemma utf8_encode_inv (s : str) (data : list byte) :
  utf8_encode s = OK data -> encodable s /\ data = utf8 s.
Proof.
  unfold encodable, utf8_encode.
  destruct (first_surrogate s); intros H; [discriminate|].
  split; congruence.
Qed.

Lemma encodable_dec (s : str) : {encodable s} + {~ encodable s}.
Proof.
  unfold encodable. destruct (first_surrogate s); [right|left]; congruence.
Qed.

Lemma first_surrogate_none (s : str) :
  first_surrogate s = None <-> forall c, In c s -> is_surrogate c = false.
Proof.
  induction s as [|c s IH]; cbn [first_surrogate In].
  - split; [intros _ c []|reflexivity].
  - destruct (is_surrogate c) eqn:Ec.
    + split; [discriminate|]. intros H. specialize (H c (or_introl eq_refl)).
      congruence.
    + destruct (first_surrogate s); cbn [option_map].
      * split; [discriminate|]. intros H.
        assert (Hn : Some n = None) by (apply IH; intros c' Hc'; apply H; now right).
        discriminate.
      * split; [|reflexivity]. intros _ c' [<-|Hc']; [exact Ec|].
        now apply (proj1 IH eq_refl).
Qed.

(** A string is encodable exactly when it holds no surrogate. *)
Lemma encodable_iff (s : str) :
  encodable s <-> forall c, In c s -> is_surrogate c = false.
Proof. apply first_surrogate_none. Qed.

(** * Verification and the message; the challenge layout *)

Section Checks.

Variable PRIME : Z.
Variable GENERATOR : Z.
Variable keccak : list byte -> list byte.

(** The modulus fits the 32-byte encoding of [r]. *)
Hypothesis PRIME_fits : PRIME <= 2 ^ 256.

Lemma keccak_message_encodable (message : str) :
  encodable message -> keccak_message keccak message = OK (keccak (utf8 message)).
Proof.
  intros He. unfold keccak_message. rewrite (utf8_encode_encodable _ He).
  reflexivity.
Qed.

Lemma keccak_message_unencodable (message : str) :
  ~ encodable message ->
  exists start stop,
    keccak_message keccak message =
      Raise (UnicodeEncodeError "utf-8" start stop "surrogates not allowed").
Proof.
  intros He. destruct (utf8_encode_unencodable _ He) as (start & stop & H).
  exists start, stop. unfold keccak_message. rewrite H. reflexivity.
Qed.

Lemma keccak_challenge_in_range (r : Z) (message : str) :
  0 < r < PRIME ->
  encodable message ->
  to_bytes r 32 = OK (be_bytes 32 r) /\
  keccak_challenge PRIME keccak r message =
    OK (from_bytes (keccak (be_bytes 32 r ++ keccak (utf8 message))) mod PRIME,
        keccak (utf8 message)).
Proof.
  intros Hr He. destruct (to_bytes_ok r 32) as (Hb & _ & _).
  { change (256 ^ Z.of_nat 32) with (2 ^ 256). lia. }
  split; [exact Hb|].
  unfold keccak_challenge.
  rewrite (proj2 (range_check_true 0 r PRIME) Hr).
  rewrite (keccak_message_encodable _ He). cbn [bind].
  rewrite Hb. reflexivity.
Qed.

(** The message is encoded before anything else is computed from an [r] in
    range, so a message without an encoding raises whatever [r] is. *)
Lemma keccak_challenge_unencodable (r : Z) (message : str) :
  0 < r < PRIME ->
  ~ encodable message ->
  exists start stop,
    keccak_challenge PRIME keccak r message =
      Raise (UnicodeEncodeError "utf-8" start stop "surrogates not allowed").
Proof.
  intros Hr He. destruct (keccak_message_unencodable _ He) as (start & stop & H).
  exists start, stop. unfold keccak_challenge.
  rewrite (proj2 (range_check_true 0 r PRIME) Hr). rewrite H. reflexivity.
Qed.



(** [verify_signature] on a message without an encoding: the range checks
    come first and return [False]; past them, the digest call raises. *)
Lemma verify_signature_unencodable (pub : Z) (message : str) (r s : Z) :
  0 < pub < PRIME -> 0 < r < PRIME -> 0 < s < PRIME - 1 ->
  ~ encodable message ->
  exists start stop,
    verify_signature PRIME GENERATOR keccak pub message r s =
      Raise (UnicodeEncodeError "utf-8" start stop "surrogates not allowed").
Proof.
  intros Hp Hr Hs He.
  destruct (keccak_challenge_unencodable r message Hr He) as (start & stop & H).
  exists start, stop. unfold verify_signature.
  rewrite (proj2 (range_check_true 0 pub PRIME) Hp).
  rewrite (proj2 (range_check_true 0 r PRIME) Hr).
  rewrite (proj2 (range_check_true 0 s (PRIME - 1)) Hs).
  rewrite H. reflexivity.
Qed.

(** C4 (amended): [verify_signature] returns a boolean for every [pub],
    [r], [s] and every message that has a UTF-8 encoding, and the boolean
    is [false] as soon as [pub], [r] or [s] is outside its interval, then
    for every message whatsoever; in particular for [r = 0], [s = 0] and
    [pub = PRIME]. *)
Theorem verify_signature_total_on_encodable (pub : Z) (message : str) (r s : Z) :
  (encodable message ->
   exists b, verify_signature PRIME GENERATOR keccak pub message r s = OK b) /\
  (~ (0 < pub < PRIME) \/ ~ (0 < r < PRIME) \/ ~ (0 < s < PRIME - 1) ->
   verify_signature PRIME GENERATOR keccak pub message r s = OK false) /\
  verify_signature PRIME GENERATOR keccak pub message 0 s = OK false /\
  verify_signature PRIME GENERATOR keccak pub message r 0 = OK false /\
  verify_signature PRIME GENERATOR keccak PRIME message r s = OK false.
Proof.
  assert (Hrej : forall pub' r' s',
             ~ (0 < pub' < PRIME) \/ ~ (0 < r' < PRIME) \/ ~ (0 < s' < PRIME - 1) ->
             verify_signature PRIME GENERATOR keccak pub' message r' s' = OK false).
  { intros pub' r' s' H. unfold verify_signature.
    destruct (negb ((0 <? pub') && (pub' <? PRIME))) eqn:Ep; [reflexivity|].
    destruct (negb ((0 <? r') && (r' <? PRIME))) eqn:Er; [reflexivity|].
    destruct (negb ((0 <? s') && (s' <? PRIME - 1))) eqn:Es; [reflexivity|].
    apply range_check_true in Ep, Er, Es. tauto. }
  split; [|split; [apply Hrej|repeat split; apply Hrej; lia]].
  intros He. unfold verify_signature.
  destruct (negb ((0 <? pub) && (pub <? PRIME))) eqn:Ep; [eauto|].
  destruct (negb ((0 <? r) && (r <? PRIME))) eqn:Er; [eauto|].
  destruct (negb ((0 <? s) && (s <? PRIME - 1))) eqn:Es; [eauto|].
  apply range_check_true in Ep, Er, Es.
  destruct (keccak_challenge_in_range r message Er He) as [_ ->].
  cbn [bind].
  rewrite !pow3_nonneg by (try apply Z.mod_pos_bound; lia).
  cbn [bind]. eauto.
Qed.

End Checks.

(** * Deterministic nonces *)

Section Determinism.

Variable PRIME : Z.
Variable GENERATOR : Z.
Variable keccak : list byte -> list byte.

Lemma sign_message_deterministic_run (priv : Z) (message : str) (g : rng) :
  sign_message PRIME GENERATOR keccak priv message true g =
  (fst (sign_message PRIME GENERATOR keccak priv message true (const_rng 0)), g).
Proof.
  unfold sign_message.
  destruct (negb ((0 <? priv) && (priv <? PRIME))); [reflexivity|].
  unfold bindM, lift, retM.
  destruct (keccak_challenge PRIME keccak 1 message) as [[h0 msg_hash]|e];
    [|reflexivity].
  destruct (_det_k PRIME keccak priv msg_hash) as [k|e]; [|reflexivity].
  destruct (pow3 GENERATOR k PRIME) as [r|e]; [|reflexivity].
  destruct (keccak_challenge PRIME keccak r message) as [[h d]|e]; reflexivity.
Qed.

Hypothesis PRIME_odd : 2 < PRIME.
Hypothesis PRIME_fits : PRIME <= 2 ^ 256.

Lemma _det_k_value (priv : Z) (msg_hash : list byte) :
  0 < priv < PRIME ->
  _det_k PRIME keccak priv msg_hash =
    OK (from_bytes (keccak (be_bytes 32 priv ++ msg_hash)) mod (PRIME - 2) + 1).
Proof.
  intros Hp. unfold _det_k.
  destruct (to_bytes_ok priv 32) as (-> & _ & _).
  { change (256 ^ Z.of_nat 32) with (2 ^ 256). lia. }
  cbn [bind]. destruct (Z.eqb_spec (PRIME - 2) 0); [lia|reflexivity].
Qed.

(** C8: in deterministic mode the signature does not depend on the random
    source, which is left untouched, so two calls with the same key and
    message return the same [(r, s)], or raise the same error; the nonce is
    the digest of the 32-byte big-endian key followed by the digest of the
    message bytes, reduced modulo [PRIME - 2] and incremented, and lies in
    [[1, PRIME - 2]]; it is the nonce that signs every message that has
    UTF-8 bytes. *)
Theorem sign_message_deterministic (priv : Z) (message : str) :
  (forall g1 g2,
     fst (sign_message PRIME GENERATOR keccak priv message true g1) =
     fst (sign_message PRIME GENERATOR keccak priv message true g2) /\
     snd (sign_message PRIME GENERATOR keccak priv message true g1) = g1) /\
  (0 < priv < PRIME ->
   exists priv_bytes k,
     length priv_bytes = 32%nat /\ from_bytes priv_bytes = priv /\
     (forall bs, length bs = 32%nat -> from_bytes bs = priv -> bs = priv_bytes) /\
     k = from_bytes (keccak (priv_bytes ++ keccak (utf8 message)))
           mod (PRIME - 2) + 1 /\
     1 <= k <= PRIME - 2 /\
     _det_k PRIME keccak priv (keccak (utf8 message)) = OK k /\
     forall g,
       encodable message ->
       fst (sign_message PRIME GENERATOR keccak priv message true g) =
       (r <- pow3 GENERATOR k PRIME ;;
        '(h, _) <- keccak_challenge PRIME keccak r message ;;
        OK (r, (k + h * priv) mod (PRIME - 1)))%py).
Proof.
  split.
  - intros g1 g2.
    rewrite (sign_message_deterministic_run priv message g1).
    rewrite (sign_message_deterministic_run priv message g2). split; reflexivity.
  - intros Hp.
    destruct (to_bytes_ok priv 32) as (_ & Hlen & Hval).
    { change (256 ^ Z.of_nat 32) with (2 ^ 256). lia. }
    eexists (be_bytes 32 priv), _. repeat split; try eassumption; try reflexivity.
    + intros bs Hbs <-. rewrite <- Hbs. symmetry. apply be_bytes_from_bytes.
    + pose proof (Z.mod_pos_bound
        (from_bytes (keccak (be_bytes 32 priv ++ keccak (utf8 message))))
        (PRIME - 2)). lia.
    + pose proof (Z.mod_pos_bound
        (from_bytes (keccak (be_bytes 32 priv ++ keccak (utf8 message))))
        (PRIME - 2)). lia.
    + apply (_det_k_value priv _ Hp).
    + intros g He. unfold sign_message.
      rewrite (proj2 (range_check_true 0 priv PRIME) Hp).
      unfold bindM, lift, retM.
      destruct (keccak_challenge_in_range PRIME keccak PRIME_fits 1 message) as [_ ->];
        [lia|exact He|].
      rewrite (_det_k_value priv _ Hp).
      destruct (pow3 GENERATOR _ PRIME) as [r|e]; [|reflexivity].
      cbn [bind].
      destruct (keccak_challenge PRIME keccak r message) as [[h d]|e]; reflexivity.
Qed.

End Determinism.

(** * Polynomials over the integers *)

Lemma peval_padd (a b : list Z) (z : Z) :
  peval (padd a b) z = peval a z + peval b z.
Proof.
  revert b. induction a as [|x a IH]; intros [|y b]; simpl; try lia.
  rewrite IH. ring.
Qed.

Lemma length_padd (a b : list Z) :
  length (padd a b) = Nat.max (length a) (length b).
Proof.
  revert b. induction a as [|x a IH]; intros [|y b]; simpl; try lia.
  rewrite IH. reflexivity.
Qed.

Lemma peval_pscale (c : Z) (a : list Z) (z : Z) :
  peval (pscale c a) z = c * peval a z.
Proof.
  induction a as [|x a IH]; simpl; [ring|]. fold (pscale c a). rewrite IH. ring.
Qed.

Lemma length_pscale (c : Z) (a : list Z) : length (pscale c a) = length a.
Proof. apply length_map. Qed.

Lemma peval_pmul_lin (a : Z) (q : list Z) (z : Z) :
  peval (pmul_lin a q) z = (z - a) * peval q z.
Proof.
  unfold pmul_lin. rewrite peval_padd, peval_pscale. simpl. ring.
Qed.

Lemma length_pmul_lin (a : Z) (q : list Z) :
  length (pmul_lin a q) = S (length q).
Proof.
  unfold pmul_lin. rewrite length_padd, length_pscale. cbn [length]. lia.
Qed.

Lemma peval_pprod (l : list Z) (z : Z) :
  peval (pprod l) z = zprod (map (fun a => z - a) l).
Proof.
  induction l as [|a l IH].
  - cbn [pprod fold_right peval map zprod]. ring.
  - cbn [pprod fold_right map zprod]. fold (pprod l).
    rewrite peval_pmul_lin, IH. reflexivity.
Qed.

Lemma length_pprod (l : list Z) : length (pprod l) = S (length l).
Proof.
  induction l as [|a l IH]; [reflexivity|].
  cbn [pprod fold_right]. fold (pprod l). rewrite length_pmul_lin, IH. reflexivity.
Qed.

Lemma quot_spec (a : Z) (cs : list Z) (z : Z) :
  peval cs z = (z - a) * peval (quot a cs) z + peval cs a.
Proof.
  induction cs as [|c q IH]; [simpl; ring|].
  destruct q as [|c' q']; [simpl; ring|].
  change (quot a (c :: c' :: q')) with (peval (c' :: q') a :: quot a (c' :: q')).
  change (peval (c :: c' :: q') z) with (c + z * peval (c' :: q') z).
  change (peval (c :: c' :: q') a) with (c + a * peval (c' :: q') a).
  change (peval (peval (c' :: q') a :: quot a (c' :: q')) z)
    with (peval (c' :: q') a + z * peval (quot a (c' :: q')) z).
  rewrite IH at 1. ring.
Qed.

Lemma length_quot (a : Z) (cs : list Z) : length (quot a cs) = pred (length cs).
Proof.
  induction cs as [|c q IH]; [reflexivity|].
  destruct q as [|c' q']; [reflexivity|].
  change (quot a (c :: c' :: q')) with (peval (c' :: q') a :: quot a (c' :: q')).
  cbn [length pred]. rewrite IH. reflexivity.
Qed.

Lemma zprod_app (l1 l2 : list Z) : zprod (l1 ++ l2) = zprod l1 * zprod l2.
Proof.
  induction l1 as [|a l1 IH].
  - cbn [app zprod fold_right]. fold (zprod l2). ring.
  - cbn [app zprod fold_right]. fold (zprod (l1 ++ l2)) (zprod l1).
    rewrite IH. ring.
Qed.

Lemma zprod_zero (l : list Z) : In 0 l -> zprod l = 0.
Proof.
  induction l as [|a l IH]; [intros []|].
  cbn [zprod fold_right In]. fold (zprod l).
  intros [->|H]; [reflexivity|]. rewrite (IH H). ring.
Qed.

(** * Congruences modulo [m] *)

#[local] Instance eqm_equivalence (m : Z) : Equivalence (eqm m).
Proof.
  unfold eqm. split.
  - intros x. reflexivity.
  - intros x y H. symmetry. exact H.
  - intros x y z H1 H2. rewrite H1. exact H2.
Qed.

#[local] Instance eqm_add (m : Z) : Proper (eqm m ==> eqm m ==> eqm m) Z.add.
Proof.
  unfold eqm. intros a b H c d H'.
  rewrite (Zplus_mod a c), (Zplus_mod b d), H, H'. reflexivity.
Qed.

#[local] Instance eqm_mul (m : Z) : Proper (eqm m ==> eqm m ==> eqm m) Z.mul.
Proof.
  unfold eqm. intros a b H c d H'.
  rewrite (Zmult_mod a c), (Zmult_mod b d), H, H'. reflexivity.
Qed.

#[local] Instance eqm_sub (m : Z) : Proper (eqm m ==> eqm m ==> eqm m) Z.sub.
Proof.
  unfold eqm. intros a b H c d H'.
  rewrite (Zminus_mod a c), (Zminus_mod b d), H, H'. reflexivity.
Qed.

#[local] Instance eqm_opp (m : Z) : Proper (eqm m ==> eqm m) Z.opp.
Proof.
  intros a b H. change (- a) with (Z.opp a).
  replace (- a) with (0 - a) by ring. replace (- b) with (0 - b) by ring.
  rewrite H. reflexivity.
Qed.

Lemma eqm_mod (m a : Z) : eqm m (a mod m) a.
Proof. unfold eqm. apply Zmod_mod. Qed.

Lemma eqm_pow (m a b k : Z) : eqm m a b -> eqm m (a ^ k) (b ^ k).
Proof.
  unfold eqm. intros H.
  rewrite <- (Z.mod_pow_l a), <- (Z.mod_pow_l b), H. reflexivity.
Qed.

Lemma eqm_peval (m : Z) (cs : list Z) (a b : Z) :
  eqm m a b -> eqm m (peval cs a) (peval cs b).
Proof.
  intros H. induction cs as [|c q IH]; simpl; [reflexivity|].
  rewrite IH, H. reflexivity.
Qed.

(** * The field of integers modulo a prime *)

Section PrimeField.

Variable PRIME : Z.
Hypothesis PRIME_prime : Z.prime PRIME.

Local Notation "a == b" := (eqm PRIME a b) (at level 70, no associativity).

Lemma PRIME_ge_2 : 2 <= PRIME.
Proof. exact (Z.prime_ge_2 PRIME PRIME_prime). Qed.

Lemma eqm_zero_iff (a : Z) : a == 0 <-> a mod PRIME = 0.
Proof. unfold eqm. rewrite Zmod_0_l. reflexivity. Qed.

Lemma eqm_integral (a b : Z) : a * b == 0 -> a == 0 \/ b == 0.
Proof.
  pose proof PRIME_ge_2 as Hp.
  rewrite !eqm_zero_iff, !Z.mod_divide by lia.
  apply Z.divide_prime_mul. exact PRIME_prime.
Qed.

Lemma eqm_one_nonzero : ~ 1 == 0.
Proof.
  pose proof PRIME_ge_2 as Hp. rewrite eqm_zero_iff, Z.mod_1_l by lia. lia.
Qed.

Lemma zprod_eqm_zero (l : list Z) : zprod l == 0 -> exists a, In a l /\ a == 0.
Proof.
  induction l as [|a l IH]; cbn [zprod fold_right]; intros H.
  - exfalso. exact (eqm_one_nonzero H).
  - fold (zprod l) in H. destruct (eqm_integral _ _ H) as [Ha|Hl].
    + exists a. split; [left; reflexivity|exact Ha].
    + destruct (IH Hl) as (b & Hb & Hb0). exists b. split; [right|]; assumption.
Qed.

(** A polynomial with more roots, distinct modulo [PRIME], than
    coefficients vanishes everywhere modulo [PRIME]. *)
Lemma poly_roots (rs : list Z) :
  forall cs : list Z,
    (length cs <= length rs)%nat ->
    NoDup (map (fun x => x mod PRIME) rs) ->
    (forall r, In r rs -> peval cs r == 0) ->
    forall z, peval cs z == 0.
Proof.
  induction rs as [|a rs IH]; intros cs Hlen Hnd Hroots z.
  - destruct cs; [reflexivity|simpl in Hlen; lia].
  - cbn [map] in Hnd. apply NoDup_cons_iff in Hnd as [Ha Hnd].
    assert (Hq : forall w, peval (quot a cs) w == 0).
    { apply IH; [rewrite length_quot; simpl in Hlen; lia|exact Hnd|].
      intros r Hr.
      assert (Hra : ~ r - a == 0).
      { intros E. apply Ha. apply in_map_iff. exists r. split; [|exact Hr].
        unfold eqm in E. rewrite Zmod_0_l in E.
        rewrite Zminus_mod in E.
        pose proof PRIME_ge_2 as Hp.
        pose proof (Z.mod_pos_bound r PRIME ltac:(lia)).
        pose proof (Z.mod_pos_bound a PRIME ltac:(lia)).
        destruct (Z.eq_dec (r mod PRIME) (a mod PRIME)) as [|Hne]; [assumption|].
        exfalso.
        destruct (Z_lt_le_dec (r mod PRIME) (a mod PRIME)).
        - replace (r mod PRIME - a mod PRIME)
            with ((r mod PRIME - a mod PRIME + PRIME) + (-1) * PRIME) in E by ring.
          rewrite Z.mod_add, Z.mod_small in E by lia. lia.
        - rewrite Z.mod_small in E by lia. lia. }
      assert (E : (r - a) * peval (quot a cs) r == 0).
      { assert (E1 : (r - a) * peval (quot a cs) r + peval cs a == peval cs r)
          by (rewrite <- quot_spec; reflexivity).
        rewrite (Hroots a (or_introl eq_refl)), (Hroots r (or_intror Hr)) in E1.
        rewrite Z.add_0_r in E1. exact E1. }
      destruct (eqm_integral _ _ E); [contradiction|assumption]. }
    rewrite (quot_spec a cs z), (Hq z), (Hroots a (or_introl eq_refl)).
    rewrite Z.mul_0_r. reflexivity.
Qed.

Lemma PI_fold (l : list Z) (acc : Z) :
  fold_left (fun a b => (a * b) mod PRIME) l acc == acc * zprod l.
Proof.
  revert acc. induction l as [|b l IH]; intros acc; cbn [fold_left zprod fold_right].
  - rewrite Z.mul_1_r. reflexivity.
  - fold (zprod l). rewrite IH, eqm_mod, Z.mul_assoc. reflexivity.
Qed.

Lemma PI_eqm (l : list Z) : PI PRIME l == zprod l.
Proof. unfold PI. rewrite PI_fold, Z.mul_1_l. reflexivity. Qed.

Lemma zprod_map_mod (g : Z -> Z) (l : list Z) :
  zprod (map (fun x => g x mod PRIME) l) == zprod (map g l).
Proof.
  induction l as [|a l IH]; cbn [map zprod fold_right]; [reflexivity|].
  fold (zprod (map (fun x => g x mod PRIME) l)) (zprod (map g l)).
  rewrite IH, eqm_mod. reflexivity.
Qed.

Lemma PI_map_mod (g : Z -> Z) (l : list Z) :
  PI PRIME (map (fun x => g x mod PRIME) l) == zprod (map g l).
Proof. rewrite PI_eqm. apply zprod_map_mod. Qed.

Lemma _eval_poly_peval (coeffs : list Z) (x : Z) :
  _eval_poly PRIME coeffs x = peval coeffs x mod PRIME.
Proof.
  unfold _eval_poly.
  rewrite <- (fold_left_rev_right (fun a res => (res * x + a) mod PRIME)).
  rewrite rev_involutive.
  induction coeffs as [|c q IH]; cbn [fold_right peval].
  - rewrite Zmod_0_l. reflexivity.
  - rewrite IH. change (eqm PRIME (peval q x mod PRIME * x + c) (c + x * peval q x)).
    rewrite eqm_mod, Z.add_comm, Z.mul_comm. reflexivity.
Qed.

Lemma fermat_inverse (d : Z) : ~ d == 0 -> (d ^ (PRIME - 2) mod PRIME) * d == 1.
Proof.
  intros Hd. pose proof PRIME_ge_2 as Hp.
  rewrite eqm_mod.
  rewrite eqm_zero_iff in Hd.
  unfold eqm.
  replace (d ^ (PRIME - 2) * d) with (d ^ (PRIME - 1)).
  - rewrite (ZmodInv.Z.fermat_nz PRIME d PRIME_prime Hd), Z.mod_1_l by lia.
    reflexivity.
  - replace (PRIME - 1) with (Z.succ (PRIME - 2)) by lia.
    rewrite Z.pow_succ_r by lia. ring.
Qed.

End PrimeField.

(** * The interpolation loop, position by position *)

Lemma enum_from_cons {A : Type} (k : nat) (a : A) (l : list A) :
  enum_from k (a :: l) = (k, a) :: enum_from (S k) l.
Proof. reflexivity. Qed.

Lemma others_after {A : Type} (f : A -> Z) (i : nat) (l : list A) :
  forall k, (i < k)%nat ->
  map (fun jx => f (snd jx))
      (filter (fun jx : nat * A => negb (Nat.eqb (fst jx) i)) (enum_from k l)) =
  map f l.
Proof.
  induction l as [|a l IH]; intros k Hk; [reflexivity|].
  rewrite enum_from_cons. cbn [filter fst].
  destruct (Nat.eqb_spec k i); [lia|].
  cbn [negb map snd]. rewrite IH by lia. reflexivity.
Qed.

Lemma others_around {A : Type} (f : A -> Z) (pre : list A) (x : A) (suf : list A) :
  forall k,
  map (fun jx => f (snd jx))
      (filter (fun jx : nat * A => negb (Nat.eqb (fst jx) (k + length pre)))
              (enum_from k (pre ++ x :: suf))) =
  map f (pre ++ suf).
Proof.
  induction pre as [|a pre IH]; intros k.
  - cbn [app length]. rewrite enum_from_cons. cbn [filter fst].
    rewrite Nat.add_0_r, Nat.eqb_refl. cbn [negb].
    apply others_after. lia.
  - cbn [app length]. rewrite enum_from_cons. cbn [filter fst].
    destruct (Nat.eqb_spec k (k + S (length pre))); [lia|].
    cbn [negb map snd]. f_equal.
    replace (k + S (length pre))%nat with (S k + length pre)%nat by lia.
    apply IH.
Qed.

Lemma others_zipper (f : Z -> Z) (pre : list Z) (x : Z) (suf : list Z) :
  others f (length pre) (pre ++ x :: suf) = map f (pre ++ suf).
Proof. exact (others_around f pre x suf 0). Qed.

Lemma combine_fst_snd {A B : Type} (l : list (A * B)) :
  combine (map fst l) (map snd l) = l.
Proof.
  induction l as [|[a b] l IH]; [reflexivity|]. cbn [map combine fst snd].
  rewrite IH. reflexivity.
Qed.

Lemma existsb_zero (l : list Z) : existsb (fun x => x =? 0) l = true <-> In 0 l.
Proof.
  rewrite existsb_exists. split.
  - intros (x & Hx & E). apply Z.eqb_eq in E. subst. exact Hx.
  - intros H. exists 0. split; [exact H|reflexivity].
Qed.

Lemma length_nodup_le (l : list Z) : (length (nodup Z.eq_dec l) <= length l)%nat.
Proof.
  induction l as [|a l IH]; [reflexivity|]. cbn [nodup length].
  destruct (in_dec Z.eq_dec a l); cbn [length]; lia.
Qed.

Lemma length_nodup_iff (l : list Z) :
  length (nodup Z.eq_dec l) = length l <-> NoDup l.
Proof.
  split.
  - induction l as [|a l IH]; intros H; [constructor|].
    cbn [nodup length] in H. pose proof (length_nodup_le l) as Hle.
    destruct (in_dec Z.eq_dec a l) as [Hin|Hnin]; cbn [length] in H; [lia|].
    constructor; [exact Hnin|apply IH; lia].
  - intros H. rewrite (nodup_fixed_point Z.eq_dec H). reflexivity.
Qed.

Section Loop.

Variable PRIME : Z.
Hypothesis PRIME_ge_2 : 2 <= PRIME.

Lemma lagrange_fold (pts : list (Z * Z)) :
  forall (pre : list Z) (acc : Z),
    fold_left (lagrange_step PRIME (pre ++ map fst pts))
              (enum_from (length pre) pts) (OK acc) =
    OK (lag_run PRIME pre pts acc).
Proof.
  induction pts as [|[x y] rest IH]; intros pre acc; [reflexivity|].
  rewrite enum_from_cons. cbn [fold_left map fst lag_run].
  unfold lagrange_step at 2. cbn [bind].
  rewrite !others_zipper, pow3_nonneg by lia. cbn [bind].
  specialize (IH (pre ++ [x]) ((acc + y * li0_of PRIME pre x (map fst rest)) mod PRIME)).
  rewrite <- app_assoc, length_app in IH. cbn [app length] in IH.
  rewrite Nat.add_1_r in IH. exact IH.
Qed.

Lemma lag_run_range (pts : list (Z * Z)) :
  forall pre acc, 0 <= acc < PRIME -> 0 <= lag_run PRIME pre pts acc < PRIME.
Proof.
  induction pts as [|[x y] rest IH]; intros pre acc Hacc; cbn [lag_run];
    [exact Hacc|].
  apply IH. apply Z.mod_pos_bound. lia.
Qed.

(** With at least one point, no zero and no repeated x-coordinate, the
    interpolation returns the value accumulated by the loop. *)
Lemma interpolation_runs (pts : list (Z * Z)) :
  pts <> [] -> ~ In 0 (map fst pts) -> NoDup (map fst pts) ->
  _lagrange_interpolation_at_zero PRIME (map fst pts) (map snd pts) =
    OK (lag_run PRIME [] pts 0).
Proof.
  intros Hne Hz Hnd. unfold _lagrange_interpolation_at_zero.
  destruct pts as [|pt rest]; [contradiction|].
  cbn [map orb]. rewrite <- !(map_cons fst), <- !(map_cons snd).
  rewrite !length_map, Nat.eqb_refl. cbn [negb].
  destruct (existsb (fun x => x =? 0) (map fst (pt :: rest))) eqn:Ez.
  { apply existsb_zero in Ez. contradiction. }
  rewrite (proj2 (length_nodup_iff _) Hnd), length_map, Nat.eqb_refl.
  cbn [orb negb]. unfold enumerate. rewrite combine_fst_snd.
  exact (lagrange_fold (pt :: rest) [] 0).
Qed.

End Loop.

Lemma interpolation_rejects (PRIME : Z) (pts : list (Z * Z)) :
  pts <> [] -> In 0 (map fst pts) \/ ~ NoDup (map fst pts) ->
  _lagrange_interpolation_at_zero PRIME (map fst pts) (map snd pts) =
    Raise (ValueError "x-coordinates must be distinct and non-zero.").
Proof.
  intros Hne Hbad. unfold _lagrange_interpolation_at_zero.
  destruct pts as [|pt rest]; [contradiction|].
  cbn [map orb]. rewrite <- !(map_cons fst), <- !(map_cons snd).
  rewrite !length_map, Nat.eqb_refl. cbn [negb].
  destruct (existsb (fun x => x =? 0) (map fst (pt :: rest))) eqn:Ez;
    [reflexivity|].
  destruct (Nat.eqb_spec (length (nodup Z.eq_dec (map fst (pt :: rest))))
                         (length (pt :: rest))) as [E|E];
    [|reflexivity].
  exfalso. rewrite <- (length_map fst (pt :: rest)) in E.
  apply length_nodup_iff in E. destruct Hbad as [H0|Hd]; [|tauto].
  apply existsb_zero in H0. congruence.
Qed.

(** * Lagrange interpolation recovers the constant term *)

Section Interpolation.

Variable PRIME : Z.
Hypothesis PRIME_prime : Z.prime PRIME.

Local Notation "a == b" := (eqm PRIME a b) (at level 70, no associativity).

Lemma eqm_sub_zero (a b : Z) : a - b == 0 -> a == b.
Proof.
  intros H. replace a with ((a - b) + b) by ring. rewrite H. reflexivity.
Qed.

Lemma distinct_around (pre suf : list Z) (x xj : Z) :
  NoDup (map (fun v => v mod PRIME) (pre ++ x :: suf)) ->
  In xj (pre ++ suf) -> ~ x - xj == 0.
Proof.
  intros Hnd Hin E. apply eqm_sub_zero in E.
  rewrite map_app in Hnd. cbn [map] in Hnd.
  apply NoDup_remove_2 in Hnd. apply Hnd.
  rewrite <- map_app. apply in_map_iff. exists xj. split; [|exact Hin].
  symmetry. exact E.
Qed.

(** The computed inverse really inverts the denominator when the
    x-coordinates are distinct modulo [PRIME]. *)
Lemma inv_denom_of_correct (pre suf : list Z) (x : Z) :
  NoDup (map (fun v => v mod PRIME) (pre ++ x :: suf)) ->
  inv_denom_of PRIME pre x suf * zprod (map (fun a => x - a) (pre ++ suf)) == 1.
Proof.
  intros Hnd. unfold inv_denom_of.
  set (D' := PI PRIME (map (fun xj => (x - xj) mod PRIME) (pre ++ suf))).
  assert (HD : D' == zprod (map (fun a => x - a) (pre ++ suf)))
    by apply (PI_map_mod PRIME (fun a => x - a)).
  rewrite <- HD. apply (fermat_inverse PRIME PRIME_prime).
  rewrite HD. intros E.
  destruct (zprod_eqm_zero PRIME PRIME_prime _ E) as (d & Hd & Hd0).
  apply in_map_iff in Hd as (xj & <- & Hxj).
  exact (distinct_around pre suf x xj Hnd Hxj Hd0).
Qed.

Lemma lag_run_eqm (pts : list (Z * Z)) :
  forall pre acc,
    lag_run PRIME pre pts acc == acc + peval (lag_poly PRIME pre pts) 0.
Proof.
  induction pts as [|[x y] rest IH]; intros pre acc; cbn [lag_run lag_poly].
  - cbn [peval]. rewrite Z.add_0_r. reflexivity.
  - rewrite IH, eqm_mod, peval_padd, peval_pscale, peval_pprod.
    unfold li0_of. rewrite eqm_mod.
    rewrite (PI_map_mod PRIME (fun xj => - xj)).
    change (map (fun a : Z => 0 - a) (pre ++ map fst rest))
      with (map (fun xj : Z => - xj) (pre ++ map fst rest)).
    match goal with
    | |- eqm _ ?l ?r => replace r with l by ring
    end.
    reflexivity.
Qed.

Lemma lag_poly_length (pts : list (Z * Z)) :
  forall pre, (length (lag_poly PRIME pre pts) <= length pre + length pts)%nat.
Proof.
  induction pts as [|[x y] rest IH]; intros pre; cbn [lag_poly length]; [lia|].
  rewrite length_padd, length_pscale, length_pprod, length_app, length_map.
  specialize (IH (pre ++ [x])). rewrite length_app in IH. cbn [length] in IH.
  lia.
Qed.

(** At an interpolation node the polynomial takes the share value; at a
    node that the loop has already passed, it vanishes. *)
Lemma lag_poly_nodes (F : Z -> Z) (pts : list (Z * Z)) :
  forall pre,
    NoDup (map (fun v => v mod PRIME) (pre ++ map fst pts)) ->
    (forall x y, In (x, y) pts -> y == F x) ->
    forall r,
      (In r pre -> peval (lag_poly PRIME pre pts) r == 0) /\
      (In r (map fst pts) -> peval (lag_poly PRIME pre pts) r == F r).
Proof.
  induction pts as [|[x y] rest IH]; intros pre Hnd Hy r.
  - cbn [lag_poly peval map]. split; [reflexivity|intros []].
  - cbn [lag_poly map fst] in *.
    assert (Hnd' : NoDup (map (fun v => v mod PRIME) ((pre ++ [x]) ++ map fst rest)))
      by (rewrite <- app_assoc; exact Hnd).
    destruct (IH (pre ++ [x]) Hnd' (fun a b H => Hy a b (or_intror H)) r)
      as [IHpre IHrest].
    rewrite peval_padd, peval_pscale, peval_pprod.
    assert (Hvanish : In r (pre ++ map fst rest) ->
                      zprod (map (fun a => r - a) (pre ++ map fst rest)) = 0).
    { intros Hin. apply zprod_zero. apply in_map_iff. exists r.
      split; [ring|exact Hin]. }
    split.
    + intros Hin. rewrite Hvanish by (apply in_or_app; left; exact Hin).
      rewrite IHpre by (apply in_or_app; left; exact Hin).
      rewrite Z.mul_0_r. reflexivity.
    + intros [<-|Hin].
      * rewrite IHpre by (apply in_or_app; right; left; reflexivity).
        rewrite <- Z.mul_assoc, (inv_denom_of_correct pre (map fst rest) x Hnd).
        rewrite Z.mul_1_r, Z.add_0_r. apply Hy. left. reflexivity.
      * rewrite Hvanish by (apply in_or_app; right; exact Hin).
        rewrite (IHrest Hin), Z.mul_0_r. reflexivity.
Qed.

(** Interpolating at least [length coeffs] points of a polynomial, at
    x-coordinates distinct modulo [PRIME], yields its constant term. *)
Lemma interpolation_recovers (coeffs : list Z) (pts : list (Z * Z)) :
  NoDup (map (fun v => v mod PRIME) (map fst pts)) ->
  (forall x y, In (x, y) pts -> y = _eval_poly PRIME coeffs x) ->
  (length coeffs <= length pts)%nat ->
  lag_run PRIME [] pts 0 = peval coeffs 0 mod PRIME.
Proof.
  intros Hnd Hy Hlen. pose proof (PRIME_ge_2 PRIME PRIME_prime) as Hp.
  set (G := padd (lag_poly PRIME [] pts) (pscale (-1) coeffs)).
  assert (HG : forall z, peval G z == 0).
  { apply (poly_roots PRIME PRIME_prime (map fst pts)).
    - unfold G. rewrite length_padd, length_pscale, length_map.
      pose proof (lag_poly_length pts []) as Hl. cbn [length] in Hl. lia.
    - exact Hnd.
    - intros r Hr. unfold G. rewrite peval_padd, peval_pscale.
      destruct (lag_poly_nodes (peval coeffs) pts [] Hnd) with (r := r) as [_ Hnode].
      { intros x y Hin. rewrite (Hy x y Hin), (_eval_poly_peval PRIME).
        apply eqm_mod. }
      rewrite (Hnode Hr).
      replace (peval coeffs r + -1 * peval coeffs r) with 0 by ring. reflexivity. }
  assert (E : lag_run PRIME [] pts 0 == peval coeffs 0).
  { rewrite lag_run_eqm, Z.add_0_l.
    specialize (HG 0). unfold G in HG. rewrite peval_padd, peval_pscale in HG.
    replace (peval (lag_poly PRIME [] pts) 0)
      with ((peval (lag_poly PRIME [] pts) 0 + -1 * peval coeffs 0) + peval coeffs 0)
      by ring.
    rewrite HG. reflexivity. }
  unfold eqm in E. rewrite <- E. symmetry. apply Z.mod_small.
  apply lag_run_range; lia.
Qed.

End Interpolation.

(** * Dealing and reconstructing *)

Section Shamir.

Variable PRIME : Z.
Hypothesis PRIME_prime : Z.prime PRIME.

Lemma random_coeffs_spec (k : nat) :
  forall g, exists tail g',
    random_coeffs PRIME k g = (OK tail, g') /\
    length tail = k /\
    Forall (fun a => 1 <= a <= PRIME - 1) tail.
Proof.
  pose proof (PRIME_ge_2 PRIME PRIME_prime) as Hp.
  induction k as [|k IH]; intros g.
  - exists [], g. repeat split. constructor.
  - cbn [random_coeffs]. unfold bindM at 1. unfold randbelow at 1.
    destruct (Z.leb_spec (PRIME - 1) 0); [lia|].
    unfold bindM at 1.
    destruct (IH (mkRng (draws g) (S (cursor g)))) as (tail & g' & -> & Hlen & Hall).
    unfold retM. eexists _, _. repeat split.
    + cbn [length]. rewrite Hlen. reflexivity.
    + constructor; [|exact Hall].
      pose proof (Z.mod_pos_bound (draws g (cursor g)) (PRIME - 1) ltac:(lia)). lia.
Qed.

Lemma generate_shares_spec (secret n t : Z) (g : rng) :
  0 < secret < PRIME -> 1 <= t <= n ->
  exists tail g',
    generate_shares PRIME secret n t g =
      (OK (map (fun x => (x, _eval_poly PRIME (secret :: tail) x)) (range 1 (n + 1))), g') /\
    length tail = Z.to_nat (t - 1) /\
    Forall (fun a => 1 <= a <= PRIME - 1) tail.
Proof.
  intros Hs Ht. unfold generate_shares.
  replace ((1 <=? t) && (t <=? n)) with true
    by (symmetry; apply andb_true_iff; split; apply Z.leb_le; lia).
  rewrite (proj2 (range_check_true 0 secret PRIME) Hs). cbn [negb].
  destruct (random_coeffs_spec (Z.to_nat (t - 1)) g) as (tail & g' & E & Hlen & Hall).
  unfold bindM. rewrite E. unfold retM. eauto.
Qed.

Lemma mod_injective_upto (x x' : Z) :
  1 <= x <= PRIME -> 1 <= x' <= PRIME -> x mod PRIME = x' mod PRIME -> x = x'.
Proof.
  intros Hx Hx' E.
  assert (Hm : forall v, 1 <= v <= PRIME ->
                 v mod PRIME = if v =? PRIME then 0 else v).
  { intros v Hv. destruct (Z.eqb_spec v PRIME) as [->|Hne].
    - apply Z_mod_same_full.
    - apply Z.mod_small. lia. }
  rewrite (Hm x Hx), (Hm x' Hx') in E.
  destruct (Z.eqb_spec x PRIME), (Z.eqb_spec x' PRIME); lia.
Qed.

(** Every list of distinct shares taken from a dealt list is a valid input
    of the interpolation, provided there are at most [PRIME] shares. *)
Lemma subset_nodes (coeffs : list Z) (n : Z) (subset : list (Z * Z)) :
  n <= PRIME -> NoDup subset ->
  incl subset (map (fun x => (x, _eval_poly PRIME coeffs x)) (range 1 (n + 1))) ->
  (forall x y, In (x, y) subset -> 1 <= x <= n /\ y = _eval_poly PRIME coeffs x) /\
  ~ In 0 (map fst subset) /\
  NoDup (map fst subset) /\
  NoDup (map (fun v => v mod PRIME) (map fst subset)).
Proof.
  intros Hn Hnd Hincl.
  assert (Hmem : forall x y, In (x, y) subset ->
                   1 <= x <= n /\ y = _eval_poly PRIME coeffs x).
  { intros x y Hin. apply Hincl, in_map_iff in Hin as (x0 & E & Hx0).
    inversion E; subst. apply in_range in Hx0. split; [lia|reflexivity]. }
  split; [exact Hmem|]. split; [|split].
  - intros H0. apply in_map_iff in H0 as ([x y] & E & Hin). cbn in E. subst.
    apply Hmem in Hin. lia.
  - apply NoDup_map_NoDup_ForallPairs; [|exact Hnd].
    intros [x y] [x' y'] Hin Hin' E. cbn in E. subst.
    apply Hmem in Hin as [_ ->], Hin' as [_ ->]. reflexivity.
  - rewrite map_map. apply NoDup_map_NoDup_ForallPairs; [|exact Hnd].
    intros [x y] [x' y'] Hin Hin' E. cbn [fst] in E.
    apply Hmem in Hin as [Hx ->], Hin' as [Hx' ->].
    rewrite (mod_injective_upto x x') by (assumption || lia). reflexivity.
Qed.

Lemma reconstruct_secret_enough (shares : list (Z * Z)) (require_t : option Z) :
  (forall rt, require_t = Some rt -> rt <= len shares) ->
  reconstruct_secret PRIME shares require_t = reconstruct_secret PRIME shares None.
Proof.
  intros H. unfold reconstruct_secret. destruct require_t as [rt|]; [|reflexivity].
  specialize (H rt eq_refl). destruct (Z.ltb_spec (len shares) rt); [lia|reflexivity].
Qed.

(** Dealing succeeds, and every list of distinct dealt shares of length at
    least [t] reconstructs the secret, as long as [n <= PRIME]. *)
Lemma dealt_shares_reconstruct (secret n t : Z) (g : rng) :
  0 < secret < PRIME -> 1 <= t <= n -> n <= PRIME ->
  exists shares g',
    generate_shares PRIME secret n t g = (OK shares, g') /\
    len shares = n /\
    forall subset require_t,
      NoDup subset -> incl subset shares -> t <= len subset ->
      (forall rt, require_t = Some rt -> rt <= len subset) ->
      reconstruct_secret PRIME subset require_t = OK secret.
Proof.
  intros Hs Ht Hn. pose proof (PRIME_ge_2 PRIME PRIME_prime) as Hp.
  destruct (generate_shares_spec secret n t g Hs Ht) as (tail & g' & E & Hlen & _).
  eexists _, g'. split; [exact E|]. split.
  { unfold len, range. rewrite !length_map, length_seq. lia. }
  intros subset require_t Hnd Hincl Hsize Hreq.
  rewrite (reconstruct_secret_enough subset require_t Hreq).
  destruct (subset_nodes (secret :: tail) n subset Hn Hnd Hincl)
    as (Hmem & Hz & Hndx & Hndm).
  assert (Hne : subset <> []).
  { intros ->. unfold len in Hsize. cbn [length] in Hsize. lia. }
  assert (Hrun : reconstruct_secret PRIME subset None =
                 _lagrange_interpolation_at_zero PRIME (map fst subset) (map snd subset)).
  { unfold reconstruct_secret. destruct subset; [contradiction|reflexivity]. }
  rewrite Hrun, (interpolation_runs PRIME Hp subset) by assumption.
  rewrite (interpolation_recovers PRIME PRIME_prime (secret :: tail) subset Hndm).
  - cbn [peval]. rewrite Z.mul_0_l, Z.add_0_r, Z.mod_small by lia. reflexivity.
  - intros x y Hin. apply (Hmem x y Hin).
  - cbn [length]. rewrite Hlen. unfold len in Hsize. lia.
Qed.

(** C1 (amended): for [0 < secret < PRIME] and [1 <= t <= n <= PRIME],
    dealing succeeds and every list of at least [t] distinct dealt shares
    reconstructs exactly [secret]: every sublist of size [t], every larger
    one up to all [n] shares, and every reordering of such a list. *)
Theorem shamir_round_trip (secret n t : Z) (g : rng) :
  0 < secret < PRIME -> 1 <= t <= n -> n <= PRIME ->
  exists shares g',
    generate_shares PRIME secret n t g = (OK shares, g') /\
    len shares = n /\
    reconstruct_secret PRIME (firstn (Z.to_nat t) shares) None = OK secret /\
    reconstruct_secret PRIME shares None = OK secret /\
    forall subset,
      NoDup subset -> incl subset shares -> t <= len subset ->
      reconstruct_secret PRIME subset None = OK secret /\
      reconstruct_secret PRIME subset (Some t) = OK secret /\
      forall reordered, Permutation subset reordered ->
        reconstruct_secret PRIME reordered None = OK secret.
Proof.
  intros Hs Ht Hn.
  destruct (dealt_shares_reconstruct secret n t g Hs Ht Hn)
    as (shares & g' & Egen & Hlen & Hrec).
  assert (Hnd : NoDup shares).
  { destruct (generate_shares_spec secret n t g Hs Ht) as (tail & g'' & E & _).
    rewrite Egen in E. injection E as -> _.
    apply NoDup_map_NoDup_ForallPairs.
    - intros x x' _ _ E. congruence.
    - unfold range. apply NoDup_map_NoDup_ForallPairs; [|apply seq_NoDup].
      intros i j _ _ E. lia. }
  exists shares, g'. split; [exact Egen|]. split; [exact Hlen|].
  split; [|split].
  - apply Hrec; try discriminate.
    + rewrite <- (firstn_skipn (Z.to_nat t) shares) in Hnd.
      exact (NoDup_app_remove_r _ _ Hnd).
    + intros pt Hin. rewrite <- (firstn_skipn (Z.to_nat t) shares).
      apply in_or_app. left. exact Hin.
    + unfold len in *. rewrite length_firstn. lia.
  - apply Hrec; try discriminate; [exact Hnd|apply incl_refl|lia].
  - intros subset Hsnd Hincl Hsize. split; [|split].
    + apply Hrec; try assumption. discriminate.
    + apply Hrec; try assumption. intros rt E. inversion E; subst. exact Hsize.
    + intros reordered Hperm. apply Hrec; try discriminate.
      * exact (Permutation_NoDup Hperm Hsnd).
      * intros pt Hin. apply Hincl.
        exact (Permutation_in pt (Permutation_sym Hperm) Hin).
      * unfold len. rewrite <- (Permutation_length Hperm). exact Hsize.
Qed.

End Shamir.

(** * Reconstruction: errors and edge cases *)

Lemma need_at_least_not_empty (a b : Z) :
  need_at_least a b <> "No shares provided.".
Proof. unfold need_at_least. cbn [append]. discriminate. Qed.

Lemma need_at_least_not_coordinates (a b : Z) :
  need_at_least a b <> "x-coordinates must be distinct and non-zero.".
Proof. unfold need_at_least. cbn [append]. discriminate. Qed.

Lemma zprod_eqm_zero_factor (m : Z) (l : list Z) (a : Z) :
  In a l -> eqm m a 0 -> eqm m (zprod l) 0.
Proof.
  induction l as [|b l IH]; [intros []|].
  cbn [In zprod fold_right]. fold (zprod l). intros [->|Hin] Ha.
  - rewrite Ha, Z.mul_0_l. reflexivity.
  - rewrite (IH Hin Ha), Z.mul_0_r. reflexivity.
Qed.

Section Reconstruction.

Variable PRIME : Z.
Hypothesis PRIME_prime : Z.prime PRIME.

Lemma reconstruct_secret_runs (shares : list (Z * Z)) :
  shares <> [] -> ~ In 0 (map fst shares) -> NoDup (map fst shares) ->
  reconstruct_secret PRIME shares None = OK (lag_run PRIME [] shares 0).
Proof.
  intros Hne Hz Hnd. pose proof (PRIME_ge_2 PRIME PRIME_prime) as Hp.
  rewrite <- (interpolation_runs PRIME Hp shares Hne Hz Hnd).
  unfold reconstruct_secret. destruct shares; [contradiction|reflexivity].
Qed.

Lemma reconstruct_secret_rejects (shares : list (Z * Z)) :
  shares <> [] -> In 0 (map fst shares) \/ ~ NoDup (map fst shares) ->
  reconstruct_secret PRIME shares None =
    Raise (ValueError "x-coordinates must be distinct and non-zero.").
Proof.
  intros Hne Hbad. rewrite <- (interpolation_rejects PRIME shares Hne Hbad).
  unfold reconstruct_secret. destruct shares; [contradiction|reflexivity].
Qed.

Lemma reconstruct_secret_too_few (shares : list (Z * Z)) (rt : Z) :
  len shares < rt ->
  reconstruct_secret PRIME shares (Some rt) =
    Raise (ValueError (need_at_least rt (len shares))).
Proof.
  intros H. unfold reconstruct_secret.
  destruct (Z.ltb_spec (len shares) rt); [reflexivity|lia].
Qed.

Lemma coordinates_dec (xs : list Z) :
  {In 0 xs \/ ~ NoDup xs} + {~ In 0 xs /\ NoDup xs}.
Proof.
  destruct (in_dec Z.eq_dec 0 xs) as [H0|H0]; [left; left; exact H0|].
  destruct (Nat.eq_dec (length (nodup Z.eq_dec xs)) (length xs)) as [E|E].
  - right. split; [exact H0|]. apply length_nodup_iff. exact E.
  - left. right. intros Hnd. apply E. apply length_nodup_iff. exact Hnd.
Qed.

(** C7: the checks of [reconstruct_secret], in the order they are made.
    The insufficient shares error is raised exactly when [require_t] is
    given and exceeds the number of shares (with [t - 1] shares and
    [require_t = t] it is raised, with [t] valid shares the call succeeds);
    past that check, an empty list raises the empty input error, and a
    non-empty list with a zero or repeated x-coordinate raises the
    coordinate error. *)
Theorem reconstruct_secret_errors (shares : list (Z * Z)) (require_t : option Z) :
  let too_few := exists rt, require_t = Some rt /\ len shares < rt in
  ((exists e, reconstruct_secret PRIME shares require_t = Raise e /\
              InsufficientSharesError e) <-> too_few) /\
  (forall t, len shares = t - 1 ->
     exists e, reconstruct_secret PRIME shares (Some t) = Raise e /\
               InsufficientSharesError e) /\
  (forall t, 1 <= t -> len shares = t ->
     ~ In 0 (map fst shares) -> NoDup (map fst shares) ->
     exists v, reconstruct_secret PRIME shares (Some t) = OK v) /\
  (~ too_few -> shares = [] ->
     exists e, reconstruct_secret PRIME shares require_t = Raise e /\
               EmptyInputError e) /\
  (~ too_few -> shares <> [] ->
     In 0 (map fst shares) \/ ~ NoDup (map fst shares) ->
     exists e, reconstruct_secret PRIME shares require_t = Raise e /\
               DuplicateOrZeroCoordinateError e).
Proof.
  intros too_few.
  assert (Hpass : ~ too_few ->
            reconstruct_secret PRIME shares require_t =
            reconstruct_secret PRIME shares None).
  { intros Hn. apply reconstruct_secret_enough. intros rt ->.
    destruct (Z_lt_le_dec (len shares) rt); [|assumption].
    exfalso. apply Hn. exists rt. split; [reflexivity|assumption]. }
  assert (Hdec : too_few \/ ~ too_few).
  { unfold too_few. destruct require_t as [rt|].
    - destruct (Z_lt_le_dec (len shares) rt).
      + left. eauto.
      + right. intros (rt' & E & H). inversion E; subst. lia.
    - right. intros (rt' & E & _). discriminate. }
  split; [split|split; [|split; [|split]]].
  - intros (e & He & (a & b & Hk)). destruct Hdec as [|Hn]; [assumption|].
    exfalso. rewrite (Hpass Hn) in He. subst e.
    destruct shares as [|pt rest] eqn:Es.
    + unfold reconstruct_secret in He.
      apply (need_at_least_not_empty a b). congruence.
    + rewrite <- Es in *.
      assert (Hne : shares <> []) by (rewrite Es; discriminate).
      destruct (coordinates_dec (map fst shares)) as [Hbad|[Hz Hnd]].
      * rewrite (reconstruct_secret_rejects shares Hne Hbad) in He.
        apply (need_at_least_not_coordinates a b). congruence.
      * rewrite (reconstruct_secret_runs shares Hne Hz Hnd) in He. discriminate.
  - intros (rt & -> & Hlt). eexists. split.
    + apply reconstruct_secret_too_few. exact Hlt.
    + exists rt, (len shares). reflexivity.
  - intros t Ht. eexists. split.
    + apply reconstruct_secret_too_few. lia.
    + exists t, (len shares). reflexivity.
  - intros t Ht Hlen Hz Hnd. eexists.
    rewrite reconstruct_secret_enough by (intros rt E; inversion E; lia).
    apply reconstruct_secret_runs; try assumption.
    intros ->. unfold len in Hlen. cbn [length] in Hlen. lia.
  - intros Hn ->. rewrite (Hpass Hn). eexists. split; reflexivity.
  - intros Hn Hne Hbad. rewrite (Hpass Hn). eexists. split.
    + apply reconstruct_secret_rejects; assumption.
    + reflexivity.
Qed.

(** C10 (amended): a single share [(x, y)] with [x <> 0], given without
    [require_t], is accepted and yields [y mod PRIME].  For a dealt share
    that value is the share itself; it equals the secret exactly when the
    non-constant part of the dealer's polynomial vanishes at [x] modulo
    [PRIME], which never happens for threshold 2 and fewer than [PRIME]
    shares. *)
Theorem reconstruct_single_share :
  (forall x y, x <> 0 ->
     reconstruct_secret PRIME [(x, y)] None = OK (y mod PRIME)) /\
  (forall secret n t g, 0 < secret < PRIME -> 1 <= t <= n ->
     exists tail shares g',
       generate_shares PRIME secret n t g = (OK shares, g') /\
       shares = map (fun x => (x, _eval_poly PRIME (secret :: tail) x)) (range 1 (n + 1)) /\
       forall x y, In (x, y) shares ->
         reconstruct_secret PRIME [(x, y)] None = OK y /\
         (y = secret <-> (x * peval tail x) mod PRIME = 0) /\
         (t = 2 -> n < PRIME -> y <> secret)).
Proof.
  pose proof (PRIME_ge_2 PRIME PRIME_prime) as Hp.
  assert (Hone : forall x y, x <> 0 ->
            reconstruct_secret PRIME [(x, y)] None = OK (y mod PRIME)).
  { intros x y Hx. rewrite reconstruct_secret_runs.
    - cbn [lag_run map fst]. unfold li0_of, inv_denom_of. cbn [app map].
      unfold PI. cbn [fold_left].
      rewrite Z.pow_1_l, Z.mod_1_l, Z.mul_1_l, Z.mod_1_l by lia.
      rewrite Z.mul_1_r, Z.add_0_l. reflexivity.
    - discriminate.
    - cbn. intros [E|[]]. congruence.
    - cbn. constructor; [intros []|constructor]. }
  split; [exact Hone|].
  intros secret n t g Hs Ht.
  destruct (generate_shares_spec PRIME PRIME_prime secret n t g Hs Ht)
    as (tail & g' & E & Hlen & Hall).
  eexists tail, _, g'. split; [exact E|]. split; [reflexivity|].
  intros x y Hin. apply in_map_iff in Hin as (x0 & Exy & Hx0).
  inversion Exy; subst x0 y. apply in_range in Hx0.
  rewrite Hone by lia. rewrite (_eval_poly_peval PRIME), Zmod_mod.
  split; [reflexivity|]. cbn [peval].
  assert (Hiff : (secret + x * peval tail x) mod PRIME = secret <->
                 (x * peval tail x) mod PRIME = 0).
  { split; intros Heq.
    - replace (x * peval tail x) with ((secret + x * peval tail x) - secret) by ring.
      rewrite Zminus_mod, Heq, (Z.mod_small secret), Z.sub_diag by lia.
      apply Zmod_0_l.
    - rewrite Zplus_mod, Heq, Z.add_0_r, Zmod_mod. apply Z.mod_small. lia. }
  split; [exact Hiff|].
  intros -> HnP Heq. apply Hiff in Heq.
  destruct tail as [|a1 [|a2 tl]]; try discriminate Hlen.
  apply Forall_inv in Hall. cbn [peval] in Heq.
  apply (proj2 (eqm_zero_iff PRIME _)) in Heq.
  destruct (eqm_integral PRIME PRIME_prime _ _ Heq) as [H0|H0];
    apply (proj1 (eqm_zero_iff PRIME _)) in H0.
  - rewrite Z.mod_small in H0 by lia. lia.
  - replace (a1 + x * 0) with a1 in H0 by ring.
    rewrite Z.mod_small in H0 by lia. lia.
Qed.

Lemma pow_zero_residue (d : Z) :
  2 < PRIME -> d mod PRIME = 0 -> d ^ (PRIME - 2) mod PRIME = 0.
Proof.
  intros Hodd Hd. rewrite <- Z.mod_pow_l, Hd, Z.pow_0_l by lia. apply Zmod_0_l.
Qed.

(** When another x-coordinate coincides with [x] modulo [PRIME], the
    denominator of [x] is [0] modulo [PRIME] and its Lagrange coefficient
    is computed as [0]. *)
Lemma coinciding_coefficient_vanishes (pre : list Z) (x : Z) (suf : list Z) (xj : Z) :
  2 < PRIME -> In xj (pre ++ suf) -> xj mod PRIME = x mod PRIME ->
  PI PRIME (others (fun v => (x - v) mod PRIME) (length pre) (pre ++ x :: suf))
    mod PRIME = 0 /\
  li0_of PRIME pre x suf = 0.
Proof.
  intros Hodd Hin E. rewrite others_zipper.
  assert (Hden : PI PRIME (map (fun v => (x - v) mod PRIME) (pre ++ suf)) mod PRIME = 0).
  { pose proof (PI_map_mod PRIME (fun v => x - v) (pre ++ suf)) as HPI.
    unfold eqm in HPI. rewrite HPI.
    apply (eqm_zero_iff PRIME).
    apply (zprod_eqm_zero_factor PRIME _ (x - xj)).
    - apply in_map_iff. exists xj. split; [reflexivity|exact Hin].
    - unfold eqm. rewrite Zminus_mod, E, Z.sub_diag. reflexivity. }
  split; [exact Hden|].
  unfold li0_of, inv_denom_of.
  rewrite (pow_zero_residue _ Hodd Hden), Z.mul_0_r. apply Zmod_0_l.
Qed.

(** Two shares whose x-coordinates differ as integers but coincide modulo
    [PRIME] pass the checks and reconstruct [0], whatever their values. *)
Lemma coinciding_shares_reconstruct_zero (x1 y1 x2 y2 : Z) :
  2 < PRIME -> x1 <> 0 -> x2 <> 0 -> x1 <> x2 -> x1 mod PRIME = x2 mod PRIME ->
  reconstruct_secret PRIME [(x1, y1); (x2, y2)] None = OK 0.
Proof.
  intros Hodd H1 H2 Hne E. rewrite reconstruct_secret_runs.
  - cbn [lag_run map fst app].
    destruct (coinciding_coefficient_vanishes [] x1 [x2] x2 Hodd) as [_ ->];
      [left; reflexivity|symmetry; exact E|].
    destruct (coinciding_coefficient_vanishes [x1] x2 [] x1 Hodd) as [_ ->];
      [left; reflexivity|exact E|].
    rewrite !Z.mul_0_r. cbn [Z.add]. rewrite !Zmod_0_l. reflexivity.
  - discriminate.
  - cbn. intuition congruence.
  - cbn. repeat constructor; cbn [In]; intuition congruence.
Qed.

(** For every odd prime modulus, dealing [PRIME + 1] shares yields two
    shares, at [x = 1] and [x = PRIME + 1], that reconstruct [0] instead of
    the secret. *)
Lemma dealing_beyond_modulus (secret : Z) (g : rng) :
  2 < PRIME -> 0 < secret < PRIME ->
  exists shares g' y1 y2,
    generate_shares PRIME secret (PRIME + 1) 2 g = (OK shares, g') /\
    incl [(1, y1); (PRIME + 1, y2)] shares /\
    NoDup [(1, y1); (PRIME + 1, y2)] /\
    reconstruct_secret PRIME [(1, y1); (PRIME + 1, y2)] None = OK 0 /\
    OK 0 <> OK secret.
Proof.
  intros Hodd Hs.
  destruct (generate_shares_spec PRIME PRIME_prime secret (PRIME + 1) 2 g Hs
              ltac:(lia)) as (tail & g' & E & _ & _).
  eexists _, g', (_eval_poly PRIME (secret :: tail) 1),
    (_eval_poly PRIME (secret :: tail) (PRIME + 1)).
  split; [exact E|]. split; [|split; [|split]].
  - intros pt [<-|[<-|[]]]; apply in_map_iff; eexists; (split; [reflexivity|]);
      apply in_range; lia.
  - constructor; [|constructor; [intros []|constructor]].
    intros [H|[]]. inversion H. lia.
  - apply coinciding_shares_reconstruct_zero; try lia.
    replace (PRIME + 1) with (1 + 1 * PRIME) by ring.
    rewrite Z.mod_add by lia. reflexivity.
  - intros H. inversion H. lia.
Qed.


End Reconstruction.

(** * Signatures *)

Section Signatures.

Variable PRIME : Z.
Variable GENERATOR : Z.
Variable keccak : list byte -> list byte.

Hypothesis PRIME_prime : Z.prime PRIME.
Hypothesis PRIME_odd : 2 < PRIME.
Hypothesis PRIME_fits : PRIME <= 2 ^ 256.
Hypothesis GENERATOR_unit : GENERATOR mod PRIME <> 0.

Local Notation "a == b" := (eqm PRIME a b) (at level 70, no associativity).

Lemma generator_pow_range (k : Z) : 0 <= k -> 0 < GENERATOR ^ k mod PRIME < PRIME.
Proof.
  intros Hk.
  pose proof (Z.mod_pos_bound (GENERATOR ^ k) PRIME ltac:(lia)) as Hb.
  assert (Hnz : GENERATOR ^ k mod PRIME <> 0); [|lia].
  rewrite Z.mod_divide by lia.
  apply (Z.coprime_prime_l_iff PRIME (GENERATOR ^ k) PRIME_prime).
  apply Z.coprime_pow_r; [exact Hk|].
  apply Z.coprime_prime_l; [exact PRIME_prime|].
  rewrite <- Z.mod_divide by lia. exact GENERATOR_unit.
Qed.

Lemma nonce_of_range (deterministic : bool) (priv : Z) (message : str) (g : rng) :
  1 <= nonce_of PRIME keccak deterministic priv message g <= PRIME - 2.
Proof.
  unfold nonce_of.
  destruct deterministic;
    match goal with
    | |- context [?a mod (PRIME - 2)] =>
        pose proof (Z.mod_pos_bound a (PRIME - 2) ltac:(lia))
    end; lia.
Qed.

Lemma keccak_challenge_value (r : Z) (message : str) :
  0 < r < PRIME ->
  encodable message ->
  keccak_challenge PRIME keccak r message =
    OK (challenge_of PRIME keccak r message, keccak (utf8 message)).
Proof.
  intros Hr He.
  exact (proj2 (keccak_challenge_in_range PRIME keccak PRIME_fits r message Hr He)).
Qed.

(** What [sign_message] returns, in terms of its nonce. *)
Lemma sign_message_value (priv : Z) (message : str) (deterministic : bool) (g : rng) :
  0 < priv < PRIME ->
  encodable message ->
  let k := nonce_of PRIME keccak deterministic priv message g in
  let r := GENERATOR ^ k mod PRIME in
  let h := challenge_of PRIME keccak r message in
  sign_message PRIME GENERATOR keccak priv message deterministic g =
    (OK (r, (k + h * priv) mod (PRIME - 1)),
     if deterministic then g else mkRng (draws g) (S (cursor g))).
Proof.
  intros Hp He k r h.
  pose proof (nonce_of_range deterministic priv message g) as Hk. fold k in Hk.
  pose proof (generator_pow_range k ltac:(lia)) as Hr. fold r in Hr.
  unfold sign_message.
  rewrite (proj2 (range_check_true 0 priv PRIME) Hp).
  unfold bindM at 1. unfold lift at 1.
  rewrite (keccak_challenge_value 1 message) by (lia || exact He).
  unfold bindM at 1.
  destruct deterministic.
  - unfold lift at 1.
    rewrite (_det_k_value PRIME keccak PRIME_odd PRIME_fits priv _ Hp).
    change (from_bytes _ mod (PRIME - 2) + 1) with k.
    unfold bindM, lift, retM. rewrite pow3_nonneg by lia. fold r.
    rewrite (keccak_challenge_value r message Hr He). reflexivity.
  - unfold bindM at 1. unfold randbelow.
    destruct (Z.leb_spec (PRIME - 2) 0); [lia|].
    unfold retM at 1.
    change (draws g (cursor g) mod (PRIME - 2) + 1) with k.
    unfold bindM, lift, retM. rewrite pow3_nonneg by lia. fold r.
    rewrite (keccak_challenge_value r message Hr He). reflexivity.
Qed.

(** C9: [G ^ k mod PRIME] lies strictly between [0] and [PRIME] for every
    nonce, so the [r] that [sign_message] returns, for a message that has
    UTF-8 bytes, passes the range check of [keccak_challenge] and of
    [verify_signature]. *)
Theorem signature_commitment_in_range :
  (forall k, 0 <= k ->
     exists r, pow3 GENERATOR k PRIME = OK r /\ 0 < r < PRIME) /\
  (forall priv message deterministic g,
     0 < priv < PRIME ->
     encodable message ->
     exists r s,
       fst (sign_message PRIME GENERATOR keccak priv message deterministic g) = OK (r, s) /\
       r = GENERATOR ^ nonce_of PRIME keccak deterministic priv message g mod PRIME /\
       0 < r < PRIME /\
       negb ((0 <? r) && (r <? PRIME)) = false /\
       exists h digest, keccak_challenge PRIME keccak r message = OK (h, digest)).
Proof.
  split.
  - intros k Hk. eexists. rewrite pow3_nonneg by lia.
    split; [reflexivity|apply generator_pow_range; exact Hk].
  - intros priv message deterministic g Hp He.
    pose proof (nonce_of_range deterministic priv message g) as Hk.
    pose proof (generator_pow_range
                  (nonce_of PRIME keccak deterministic priv message g) ltac:(lia)) as Hr.
    rewrite (sign_message_value priv message deterministic g Hp He). cbn [fst].
    eexists _, _. split; [reflexivity|]. split; [reflexivity|].
    split; [exact Hr|]. split; [apply range_check_true; exact Hr|].
    eexists _, _. apply keccak_challenge_value; [exact Hr|exact He].
Qed.

(** The [s] component is a residue modulo [PRIME - 1]: between [0] and
    [PRIME - 2], with [0] included. *)
Lemma sign_message_scalar_range (priv : Z) (message : str) (deterministic : bool)
    (g : rng) :
  0 < priv < PRIME ->
  encodable message ->
  exists r s,
    fst (sign_message PRIME GENERATOR keccak priv message deterministic g) = OK (r, s) /\
    0 <= s <= PRIME - 2.
Proof.
  intros Hp He. rewrite (sign_message_value priv message deterministic g Hp He). cbn [fst].
  eexists _, _. split; [reflexivity|].
  match goal with
  | |- context [?a mod (PRIME - 1)] =>
      pose proof (Z.mod_pos_bound a (PRIME - 1) ltac:(lia))
  end. lia.
Qed.

(** Whenever the challenge of some nonce is a unit modulo [PRIME - 1],
    there is a private key in range for which [sign_message], drawing that
    nonce, returns [s = 0]. *)
Lemma sign_message_scalar_can_vanish (message : str) (k : Z) :
  encodable message ->
  1 <= k <= PRIME - 2 ->
  Z.gcd (challenge_of PRIME keccak (GENERATOR ^ k mod PRIME) message) (PRIME - 1) = 1 ->
  exists priv g,
    0 < priv < PRIME /\
    nonce_of PRIME keccak false priv message g = k /\
    fst (sign_message PRIME GENERATOR keccak priv message false g) =
      OK (GENERATOR ^ k mod PRIME, 0).
Proof.
  intros He Hk Hgcd.
  set (h := challenge_of PRIME keccak (GENERATOR ^ k mod PRIME) message) in *.
  set (priv := (- k * Z.invmod h (PRIME - 1)) mod (PRIME - 1)).
  assert (Hs : (k + h * priv) mod (PRIME - 1) = 0).
  { assert (E : eqm (PRIME - 1) (k + h * priv) 0).
    { unfold priv. rewrite eqm_mod.
      replace (h * (- k * Z.invmod h (PRIME - 1)))
        with (- k * (Z.invmod h (PRIME - 1) * h)) by ring.
      assert (Hinv : eqm (PRIME - 1) (Z.invmod h (PRIME - 1) * h) 1).
      { unfold eqm. rewrite Z.invmod_coprime by (assumption || lia).
        rewrite Z.mod_1_l by lia. reflexivity. }
      rewrite Hinv. replace (k + - k * 1) with 0 by ring. reflexivity. }
    unfold eqm in E. rewrite Zmod_0_l in E. exact E. }
  assert (Hpriv : 0 < priv < PRIME).
  { pose proof (Z.mod_pos_bound (- k * Z.invmod h (PRIME - 1)) (PRIME - 1) ltac:(lia)) as Hb.
    fold priv in Hb.
    assert (priv <> 0); [|lia].
    intros E0. rewrite E0, Z.mul_0_r, Z.add_0_r, Z.mod_small in Hs by lia. lia. }
  assert (Hnonce : nonce_of PRIME keccak false priv message (const_rng (k - 1)) = k).
  { unfold nonce_of, const_rng. cbn [draws cursor]. rewrite Z.mod_small by lia. lia. }
  exists priv, (const_rng (k - 1)). split; [exact Hpriv|]. split; [exact Hnonce|].
  rewrite (sign_message_value priv message false _ Hpriv He). cbn [fst].
  rewrite Hnonce. fold h. rewrite Hs. reflexivity.
Qed.

Lemma pow_mod_order (a e : Z) :
  a mod PRIME <> 0 -> 0 <= e -> a ^ (e mod (PRIME - 1)) == a ^ e.
Proof.
  intros Ha He.
  pose proof (Z.mod_pos_bound e (PRIME - 1) ltac:(lia)) as Hb.
  assert (Hq : 0 <= e / (PRIME - 1)) by (apply Z.div_pos; lia).
  assert (Hf : a ^ (PRIME - 1) == 1).
  { unfold eqm. rewrite (ZmodInv.Z.fermat_nz PRIME a PRIME_prime Ha).
    rewrite Z.mod_1_l by lia. reflexivity. }
  pose proof (Z.div_mod e (PRIME - 1) ltac:(lia)) as Hdm.
  remember (e / (PRIME - 1)) as q eqn:Eq.
  remember (e mod (PRIME - 1)) as m eqn:Em.
  rewrite Hdm, Z.pow_add_r, Z.pow_mul_r by nia.
  rewrite (eqm_pow PRIME _ _ q Hf), Z.pow_1_l, Z.mul_1_l by lia.
  reflexivity.
Qed.

(** The verification equation holds for every honestly produced pair; the
    verdict of [verify_signature] is therefore decided by its range check
    on [s] alone. *)
Lemma signature_verifies (priv : Z) (message : str) (deterministic : bool) (g : rng) :
  0 < priv < PRIME ->
  encodable message ->
  exists r s g',
    sign_message PRIME GENERATOR keccak priv message deterministic g = (OK (r, s), g') /\
    pubkey_from_secret PRIME GENERATOR priv = OK (GENERATOR ^ priv mod PRIME) /\
    verify_signature PRIME GENERATOR keccak (GENERATOR ^ priv mod PRIME) message r s =
      OK (negb (s =? 0)).
Proof.
  intros Hp He.
  rewrite (sign_message_value priv message deterministic g Hp He).
  pose proof (nonce_of_range deterministic priv message g) as Hk.
  set (k := nonce_of PRIME keccak deterministic priv message g) in *.
  pose proof (generator_pow_range k ltac:(lia)) as Hr.
  set (r := GENERATOR ^ k mod PRIME) in *.
  set (h := challenge_of PRIME keccak r message).
  assert (Hh : 0 <= h < PRIME) by (apply Z.mod_pos_bound; lia).
  pose proof (generator_pow_range priv ltac:(lia)) as Hpub.
  pose proof (Z.mod_pos_bound (k + h * priv) (PRIME - 1) ltac:(lia)) as Hs.
  eexists r, _, _. split; [reflexivity|]. split.
  { unfold pubkey_from_secret.
    rewrite (proj2 (range_check_true 0 priv PRIME) Hp).
    apply pow3_nonneg; lia. }
  set (s := (k + h * priv) mod (PRIME - 1)) in *.
  unfold verify_signature.
  rewrite (proj2 (range_check_true 0 _ PRIME) Hpub).
  rewrite (proj2 (range_check_true 0 r PRIME) Hr).
  destruct (Z.eqb_spec s 0) as [E0|Hnz]; cbn [negb].
  - rewrite E0. reflexivity.
  - rewrite (proj2 (range_check_true 0 s (PRIME - 1))) by lia.
    rewrite (keccak_challenge_value r message Hr He). cbn [bind]. fold h.
    rewrite !pow3_nonneg by lia. cbn [bind]. f_equal. apply Z.eqb_eq.
    change (eqm PRIME (GENERATOR ^ s) (r * ((GENERATOR ^ priv mod PRIME) ^ h mod PRIME))).
    unfold s, r. rewrite (pow_mod_order GENERATOR (k + h * priv)) by (assumption || nia).
    rewrite !eqm_mod, (eqm_pow PRIME _ _ h (eqm_mod PRIME (GENERATOR ^ priv))).
    rewrite <- Z.pow_mul_r, <- Z.pow_add_r by nia.
    replace (k + priv * h) with (k + h * priv) by ring. reflexivity.
Qed.

(** Signing through shares: with enough distinct shares of [secret],
    [threshold_sign] returns what [sign_message] returns for [secret],
    together with the message digest. *)
Lemma threshold_signature_verifies (secret n t : Z) (g0 : rng) :
  0 < secret < PRIME -> 1 <= t <= n -> n <= PRIME ->
  exists shares g0',
    generate_shares PRIME secret n t g0 = (OK shares, g0') /\
    forall subset require_t message deterministic g,
      NoDup subset -> incl subset shares -> t <= len subset ->
      (forall rt, require_t = Some rt -> rt <= len subset) ->
      encodable message ->
      exists r s g',
        threshold_sign PRIME GENERATOR keccak subset message deterministic require_t g =
          (OK (r, s, keccak (utf8 message)), g') /\
        sign_message PRIME GENERATOR keccak secret message deterministic g =
          (OK (r, s), g') /\
        verify_signature PRIME GENERATOR keccak (GENERATOR ^ secret mod PRIME) message r s =
          OK (negb (s =? 0)).
Proof.
  intros Hs Ht Hn.
  destruct (dealt_shares_reconstruct PRIME PRIME_prime secret n t g0 Hs Ht Hn)
    as (shares & g0' & Egen & _ & Hrec).
  exists shares, g0'. split; [exact Egen|].
  intros subset require_t message deterministic g Hnd Hincl Hsize Hreq He.
  destruct (signature_verifies secret message deterministic g Hs He)
    as (r & s & g' & Esign & _ & Hver).
  exists r, s, g'. split; [|split; assumption].
  unfold threshold_sign.
  replace (match require_t with Some rt => len subset <? rt | None => false end)
    with false.
  2:{ destruct require_t as [rt|]; [|reflexivity].
      specialize (Hreq rt eq_refl). symmetry. apply Z.ltb_ge. exact Hreq. }
  unfold bindM at 1. unfold lift at 1.
  rewrite (Hrec subset None Hnd Hincl Hsize) by discriminate.
  rewrite (proj2 (range_check_true 0 secret PRIME) Hs).
  unfold bindM at 1. rewrite Esign.
  assert (Hr : 0 < r < PRIME).
  { rewrite (sign_message_value secret message deterministic g Hs He) in Esign.
    injection Esign as <- _ _. apply generator_pow_range.
    pose proof (nonce_of_range deterministic secret message g). lia. }
  unfold bindM, lift, retM. rewrite (keccak_challenge_value r message Hr He).
  reflexivity.
Qed.

End Signatures.

(** * Concrete runs

    The modulus 11 with generator 2 (a primitive root) and the Keccak-256
    digest. *)

Lemma prime_11 : Z.prime 11.
Proof. apply prime_check_sound. vm_compute. reflexivity. Qed.

Lemma prime_5 : Z.prime 5.
Proof. apply prime_check_sound. vm_compute. reflexivity. Qed.


Lemma verify_signature_total_on_encodable_witness :
  11 <= 2 ^ 256 /\
  encodable (text "repeatable") /\
  (exists b,
     verify_signature 11 2 Keccak.keccak256 7 (text "repeatable") 6 4 = OK b) /\
  (~ (0 < 7 < 11) \/ ~ (0 < 6 < 11) \/ ~ (0 < 10 < 11 - 1)) /\
  verify_signature 11 2 Keccak.keccak256 7 [0xD800%N] 6 10 = OK false.
Proof.
  assert (He : encodable (text "repeatable")) by reflexivity.
  assert (Hout : ~ (0 < 7 < 11) \/ ~ (0 < 6 < 11) \/ ~ (0 < 10 < 11 - 1))
    by (right; right; lia).
  split; [lia|]. split; [exact He|]. split.
  - exact (proj1 (verify_signature_total_on_encodable 11 2 Keccak.keccak256 ltac:(lia)
                    7 (text "repeatable") 6 4) He).
  - split; [exact Hout|].
    exact (proj1 (proj2 (verify_signature_total_on_encodable 11 2 Keccak.keccak256
                           ltac:(lia) 7 [0xD800%N] 6 10)) Hout).
Defined.

(** C4, as stated, fails on a message that has no UTF-8 encoding: for the
    one-character message [U+D800], a lone surrogate, and [pub], [r], [s]
    inside their intervals, the digest call raises [UnicodeEncodeError] and
    [verify_signature] returns no boolean. *)
Lemma verify_signature_raises_on_surrogate :
  11 <= 2 ^ 256 /\ 0 < 7 < 11 /\ 0 < 6 < 11 /\ 0 < 4 < 11 - 1 /\
  ~ encodable [0xD800%N] /\
  utf8_encode [0xD800%N] =
    Raise (UnicodeEncodeError "utf-8" 0 1 "surrogates not allowed") /\
  verify_signature 11 2 Keccak.keccak256 7 [0xD800%N] 6 4 =
    Raise (UnicodeEncodeError "utf-8" 0 1 "surrogates not allowed") /\
  (forall b, verify_signature 11 2 Keccak.keccak256 7 [0xD800%N] 6 4 <> OK b) /\
  verify_signature 11 2 Keccak.keccak256 7 (text "repeatable") 6 4 = OK true.
Proof.
  split; [lia|]. split; [lia|]. split; [lia|]. split; [lia|].
  split; [vm_compute; discriminate|].
  split; [vm_compute; reflexivity|]. split; [vm_compute; reflexivity|].
  split; [intros b; vm_compute; discriminate|vm_compute; reflexivity].
Qed.

(** The UTF-8 bytes of one-, two-, three- and four-byte characters, and the
    span reported for the first run of surrogates. *)
Example utf8_encode_samples :
  map Z_of_byte (utf8 [0x41; 0xE9; 0x20AC; 0x10000; 0x10FFFF]%N) =
    [65; 195; 169; 226; 130; 172; 240; 144; 128; 128; 244; 143; 191; 191] /\
  utf8 (text "hello") = list_byte_of_string "hello" /\
  utf8_encode [0x61; 0x62; 0xDFFF; 0xD800; 0xDBFF; 0x63; 0xD800]%N =
    Raise (UnicodeEncodeError "utf-8" 2 5 "surrogates not allowed").
Proof. repeat split; vm_compute; reflexivity. Qed.

Lemma sign_message_deterministic_witness :
  2 < 11 /\ 11 <= 2 ^ 256 /\
  fst (sign_message 11 2 Keccak.keccak256 7 (text "repeatable") true (const_rng 3)) =
  fst (sign_message 11 2 Keccak.keccak256 7 (text "repeatable") true (list_rng [8; 1])).
Proof.
  split; [lia|]. split; [lia|].
  apply (sign_message_deterministic 11 2 Keccak.keccak256 ltac:(lia) ltac:(lia)
           7 (text "repeatable")).
Defined.

Lemma signature_commitment_in_range_witness :
  Z.prime 11 /\ 2 < 11 /\ 11 <= 2 ^ 256 /\ 2 mod 11 <> 0 /\ 0 <= 7 /\
  exists r, pow3 2 7 11 = OK r /\ 0 < r < 11.
Proof.
  split; [exact prime_11|]. split; [lia|]. split; [lia|].
  split; [vm_compute; discriminate|]. split; [lia|].
  apply (signature_commitment_in_range 11 2 Keccak.keccak256 prime_11
           ltac:(lia) ltac:(lia) ltac:(vm_compute; discriminate)).
  lia.
Defined.

Lemma shamir_round_trip_witness :
  Z.prime 11 /\ 0 < 5 < 11 /\ 1 <= 3 <= 5 /\ 5 <= 11 /\
  fst (generate_shares 11 5 5 3 (const_rng 2)) =
    OK [(1, 0); (2, 1); (3, 8); (4, 10); (5, 7)] /\
  reconstruct_secret 11 [(5, 7); (1, 0); (3, 8)] None = OK 5 /\
  reconstruct_secret 11 [(2, 1); (3, 8); (4, 10); (5, 7)] (Some 3) = OK 5.
Proof.
  split; [exact prime_11|]. split; [lia|]. split; [lia|]. split; [lia|].
  destruct (shamir_round_trip 11 prime_11 5 5 3 (const_rng 2))
    as (shares & g' & Egen & _ & _ & _ & Hsub); try lia.
  vm_compute in Egen. injection Egen as <- _.
  split; [reflexivity|]. split.
  - apply Hsub.
    + repeat constructor; cbn [In]; intuition discriminate.
    + intros pt Hin. cbn [In] in *. intuition.
    + vm_compute. discriminate.
  - apply Hsub.
    + repeat constructor; cbn [In]; intuition discriminate.
    + intros pt Hin. cbn [In] in *. intuition.
    + vm_compute. discriminate.
Defined.

(** C1, as stated, fails once there are more shares than field elements:
    with [PRIME = 5], [n = 6] and [t = 2] the shares at [x = 1] and [x = 6]
    coincide modulo 5 and reconstruct 0, not the secret 1. *)
Lemma round_trip_fails_beyond_modulus :
  Z.prime 5 /\ 0 < 1 < 5 /\ 1 <= 2 <= 6 /\
  fst (generate_shares 5 1 6 2 (const_rng 0)) =
    OK [(1, 2); (2, 3); (3, 4); (4, 0); (5, 1); (6, 2)] /\
  reconstruct_secret 5 [(1, 2); (6, 2)] None = OK 0 /\
  reconstruct_secret 5 [(1, 2); (6, 2)] None <> OK 1.
Proof.
  split; [exact prime_5|].
  split; [lia|]. split; [lia|]. split; [vm_compute; reflexivity|].
  split; [vm_compute; reflexivity|]. vm_compute. discriminate.
Qed.

Lemma reconstruct_secret_errors_witness :
  Z.prime 11 /\ 1 <= 3 /\ len [(1, 4); (2, 8); (3, 3)] = 3 /\
  ~ In 0 (map fst [(1, 4); (2, 8); (3, 3)]) /\
  NoDup (map fst [(1, 4); (2, 8); (3, 3)]) /\
  exists v, reconstruct_secret 11 [(1, 4); (2, 8); (3, 3)] (Some 3) = OK v.
Proof.
  assert (Hz : ~ In 0 (map fst [(1, 4); (2, 8); (3, 3)]))
    by (cbn; intuition discriminate).
  assert (Hnd : NoDup (map fst [(1, 4); (2, 8); (3, 3)]))
    by (cbn; repeat constructor; cbn [In]; intuition discriminate).
  split; [exact prime_11|]. split; [lia|]. split; [reflexivity|].
  split; [exact Hz|]. split; [exact Hnd|].
  exact (proj1 (proj2 (proj2
           (reconstruct_secret_errors 11 prime_11 [(1, 4); (2, 8); (3, 3)] None)))
           3 ltac:(lia) eq_refl Hz Hnd).
Defined.

(** The threshold check is the first one: an empty list, or a repeated
    coordinate, given together with a [require_t] above the number of shares
    raises the insufficient shares error. *)
Lemma empty_list_with_threshold :
  reconstruct_secret 11 [] (Some 1) =
    Raise (ValueError "Need at least 1 shares; got 0") /\
  ~ EmptyInputError (ValueError "Need at least 1 shares; got 0") /\
  reconstruct_secret 11 [(1, 4); (1, 8)] (Some 3) =
    Raise (ValueError "Need at least 3 shares; got 2") /\
  ~ DuplicateOrZeroCoordinateError (ValueError "Need at least 3 shares; got 2").
Proof.
  split; [vm_compute; reflexivity|]. split; [unfold EmptyInputError; discriminate|].
  split; [vm_compute; reflexivity|].
  unfold DuplicateOrZeroCoordinateError. discriminate.
Qed.

Lemma reconstruct_single_share_witness :
  Z.prime 11 /\ 3 <> 0 /\ reconstruct_secret 11 [(3, 25)] None = OK (25 mod 11).
Proof.
  split; [exact prime_11|]. split; [lia|].
  apply (reconstruct_single_share 11 prime_11). lia.
Defined.

(** C10, as stated, fails for a threshold above 2: with coefficients
    [5 + x + 10 x^2] modulo 11 the share at [x = 1] is the secret itself. *)
Lemma single_share_can_be_the_secret :
  Z.prime 11 /\ 0 < 5 < 11 /\ 1 < 3 <= 3 /\
  fst (generate_shares 11 5 3 3 (list_rng [0; 9])) = OK [(1, 5); (2, 3); (3, 10)] /\
  reconstruct_secret 11 [(1, 5)] None = OK 5.
Proof.
  split; [exact prime_11|]. split; [lia|]. split; [lia|].
  split; vm_compute; reflexivity.
Qed.



(** C3 at a failing input: with [PRIME = 11], [GENERATOR = 2], the key 2
    and the message ["hello"], deterministic signing draws the nonce 4 and
    returns [s = 0]; so does random signing when the nonce 4 is drawn. *)
Lemma sign_message_returns_zero_scalar :
  Z.prime 11 /\ 2 mod 11 <> 0 /\ 0 < 2 < 11 /\
  nonce_of 11 Keccak.keccak256 true 2 (text "hello") (const_rng 0) = 4 /\
  fst (sign_message 11 2 Keccak.keccak256 2 (text "hello") true (const_rng 0)) = OK (5, 0) /\
  nonce_of 11 Keccak.keccak256 false 2 (text "hello") (const_rng 3) = 4 /\
  fst (sign_message 11 2 Keccak.keccak256 2 (text "hello") false (const_rng 3)) = OK (5, 0).
Proof.
  split; [exact prime_11|]. split; [vm_compute; discriminate|]. split; [lia|].
  repeat split; vm_compute; reflexivity.
Qed.

(** C2 at a failing input: the signature that [sign_message] returns for
    the key 2 and the message ["hello"] is rejected under the matching
    public key, directly and through [threshold_sign] on three shares. *)
Lemma honest_signature_rejected :
  Z.prime 11 /\ 2 mod 11 <> 0 /\ 0 < 2 < 11 /\
  pubkey_from_secret 11 2 2 = OK 4 /\
  fst (sign_message 11 2 Keccak.keccak256 2 (text "hello") true (const_rng 0)) = OK (5, 0) /\
  verify_signature 11 2 Keccak.keccak256 4 (text "hello") 5 0 = OK false /\
  fst (generate_shares 11 2 5 3 (const_rng 0)) =
    OK [(1, 4); (2, 8); (3, 3); (4, 0); (5, 10)] /\
  fst (threshold_sign 11 2 Keccak.keccak256 [(1, 4); (2, 8); (3, 3)] (text "hello") true
         (Some 3) (const_rng 0)) =
    OK (5, 0, Keccak.keccak256 (utf8 (text "hello"))).
Proof.
  split; [exact prime_11|]. split; [vm_compute; discriminate|]. split; [lia|].
  repeat split; vm_compute; reflexivity.
Qed.

(** * Dealing: arguments, shape and randomness *)

Section Dealing.

Variable PRIME : Z.

Lemma random_coeffs_run (k : nat) :
  1 < PRIME ->
  forall g,
    random_coeffs PRIME k g =
      (OK (map (fun i => draws g (cursor g + i) mod (PRIME - 1) + 1) (seq 0 k)),
       mkRng (draws g) (cursor g + k)).
Proof.
  intros Hp. induction k as [|k IH]; intros g.
  - cbn [random_coeffs seq map]. unfold retM. rewrite Nat.add_0_r.
    destruct g; reflexivity.
  - cbn [random_coeffs]. unfold bindM at 1. unfold randbelow at 1.
    destruct (Z.leb_spec (PRIME - 1) 0); [lia|].
    unfold bindM at 1. rewrite IH. unfold retM. cbn [draws cursor].
    rewrite <- cons_seq, <- seq_shift, map_cons, map_map, Nat.add_0_r.
    f_equal; [f_equal; f_equal|f_equal; lia].
    apply map_ext. intros i. rewrite Nat.add_succ_r. reflexivity.
Qed.

Lemma _eval_poly_range (coeffs : list Z) (x : Z) :
  0 < PRIME -> 0 <= _eval_poly PRIME coeffs x < PRIME.
Proof.
  intros Hp. rewrite _eval_poly_peval. apply Z.mod_pos_bound. exact Hp.
Qed.

(** X1: [generate_shares] fails for exactly two reasons, checked in this
    order: [1 <= t <= n] is violated, or the secret is outside
    [0 < secret < PRIME]; both leave the random source untouched, and with
    valid arguments the call always returns shares. *)
Theorem generate_shares_argument_checks (secret n t : Z) (g : rng) :
  (~ (1 <= t <= n) ->
   generate_shares PRIME secret n t g =
     (Raise (ValueError "Require 1 <= t <= n."), g)) /\
  (1 <= t <= n -> ~ (0 < secret < PRIME) ->
   generate_shares PRIME secret n t g =
     (Raise (ValueError "secret must be in 1..PRIME-1."), g)) /\
  ((exists shares g', generate_shares PRIME secret n t g = (OK shares, g')) <->
   1 <= t <= n /\ 0 < secret < PRIME).
Proof.
  assert (Hbad_t : ~ (1 <= t <= n) ->
            generate_shares PRIME secret n t g =
              (Raise (ValueError "Require 1 <= t <= n."), g)).
  { intros H. unfold generate_shares.
    replace ((1 <=? t) && (t <=? n)) with false; [reflexivity|].
    symmetry. apply andb_false_iff.
    destruct (Z.leb_spec 1 t); [|left; reflexivity].
    destruct (Z.leb_spec t n); [lia|right; reflexivity]. }
  assert (Hgood_t : 1 <= t <= n -> (1 <=? t) && (t <=? n) = true).
  { intros H. apply andb_true_iff. split; apply Z.leb_le; lia. }
  assert (Hbad_s : 1 <= t <= n -> ~ (0 < secret < PRIME) ->
            generate_shares PRIME secret n t g =
              (Raise (ValueError "secret must be in 1..PRIME-1."), g)).
  { intros Ht Hs. unfold generate_shares. rewrite (Hgood_t Ht). cbn [negb].
    rewrite (proj2 (range_check_false 0 secret PRIME) Hs). reflexivity. }
  split; [exact Hbad_t|]. split; [exact Hbad_s|]. split.
  - intros (shares & g' & E).
    destruct (Z_le_dec 1 t) as [H1|H1], (Z_le_dec t n) as [H2|H2];
      try (rewrite Hbad_t in E by lia; discriminate).
    split; [lia|].
    destruct (Z_lt_dec 0 secret) as [H3|H3], (Z_lt_dec secret PRIME) as [H4|H4];
      try (rewrite Hbad_s in E by lia; discriminate).
    lia.
  - intros [Ht Hs]. unfold generate_shares. rewrite (Hgood_t Ht). cbn [negb].
    rewrite (proj2 (range_check_true 0 secret PRIME) Hs).
    unfold bindM. rewrite random_coeffs_run by lia. unfold retM. eauto.
Qed.

(** X2: with valid arguments [generate_shares] returns exactly [n] shares
    whose x-coordinates are [1, ..., n] in order and whose values lie in
    [[0, PRIME)]; they are the values of one polynomial with constant term
    [secret] and [t - 1] further coefficients in [[1, PRIME - 1]], each
    taken from one draw, and the random source advances by [t - 1]. *)
Theorem generate_shares_shape (secret n t : Z) (g : rng) :
  1 <= t <= n -> 0 < secret < PRIME ->
  exists tail shares,
    generate_shares PRIME secret n t g =
      (OK shares, mkRng (draws g) (cursor g + Z.to_nat (t - 1))) /\
    tail = map (fun i => draws g (cursor g + i) mod (PRIME - 1) + 1)
               (seq 0 (Z.to_nat (t - 1))) /\
    Forall (fun a => 1 <= a <= PRIME - 1) tail /\
    len (secret :: tail) = t /\
    len shares = n /\
    map fst shares = range 1 (n + 1) /\
    map snd shares = map (_eval_poly PRIME (secret :: tail)) (range 1 (n + 1)) /\
    Forall (fun xy => 1 <= fst xy <= n /\ 0 <= snd xy < PRIME) shares.
Proof.
  intros Ht Hs. unfold generate_shares.
  replace ((1 <=? t) && (t <=? n)) with true
    by (symmetry; apply andb_true_iff; split; apply Z.leb_le; lia).
  rewrite (proj2 (range_check_true 0 secret PRIME) Hs). cbn [negb].
  unfold bindM. rewrite random_coeffs_run by lia. unfold retM.
  eexists _, _. split; [reflexivity|]. split; [reflexivity|].
  split; [|split; [|split; [|split; [|split]]]].
  - apply Forall_forall. intros a Ha. apply in_map_iff in Ha as (i & <- & _).
    pose proof (Z.mod_pos_bound (draws g (cursor g + i)) (PRIME - 1) ltac:(lia)).
    lia.
  - unfold len. cbn [length]. rewrite length_map, length_seq. lia.
  - unfold len, range. rewrite !length_map, length_seq. lia.
  - rewrite map_map. cbn [fst]. apply map_id.
  - rewrite map_map. reflexivity.
  - apply Forall_forall. intros [x y] Hin.
    apply in_map_iff in Hin as (x0 & E & Hx0). inversion E; subst.
    apply in_range in Hx0. cbn [fst snd]. split; [lia|].
    apply _eval_poly_range. lia.
Qed.

(** X3: with threshold 1 no randomness is used and every share carries
    the secret itself. *)
Theorem generate_shares_threshold_one (secret n : Z) (g : rng) :
  1 <= n -> 0 < secret < PRIME ->
  generate_shares PRIME secret n 1 g =
    (OK (map (fun x => (x, secret)) (range 1 (n + 1))), g).
Proof.
  intros Hn Hs. unfold generate_shares.
  replace ((1 <=? 1) && (1 <=? n)) with true
    by (symmetry; apply andb_true_iff; split; apply Z.leb_le; lia).
  rewrite (proj2 (range_check_true 0 secret PRIME) Hs). cbn [negb].
  change (Z.to_nat (1 - 1)) with 0%nat. cbn [random_coeffs].
  unfold bindM, retM. f_equal. f_equal. apply map_ext. intros x.
  unfold _eval_poly. cbn [rev app fold_left].
  rewrite Z.mul_0_l, Z.add_0_l, Z.mod_small by lia. reflexivity.
Qed.

Lemma poly_sum_from (coeffs : list Z) (x : Z) :
  forall k,
    fold_right Z.add 0
      (map (fun ia => snd ia * x ^ Z.of_nat (fst ia)) (enum_from k coeffs)) =
    x ^ Z.of_nat k * peval coeffs x.
Proof.
  induction coeffs as [|c q IH]; intros k.
  - cbn. ring.
  - rewrite enum_from_cons. cbn [map fold_right fst snd peval].
    rewrite IH, Nat2Z.inj_succ, Z.pow_succ_r by lia. ring.
Qed.

(** X4: [_eval_poly] computes the polynomial
    [a0 + a1*x + ... + a_{t-1}*x^(t-1)] reduced modulo [PRIME]: the result
    lies in [[0, PRIME)], depends on [x] only modulo [PRIME], is [0] for an
    empty coefficient list and is the constant term (reduced) at [x = 0]. *)
Theorem _eval_poly_is_polynomial (coeffs : list Z) (x : Z) :
  0 < PRIME ->
  _eval_poly PRIME coeffs x = poly_sum coeffs x mod PRIME /\
  0 <= _eval_poly PRIME coeffs x < PRIME /\
  _eval_poly PRIME coeffs (x mod PRIME) = _eval_poly PRIME coeffs x /\
  _eval_poly PRIME [] x = 0 /\
  _eval_poly PRIME coeffs 0 = hd 0 coeffs mod PRIME.
Proof.
  intros Hp. split; [|split; [|split; [|split]]].
  - rewrite _eval_poly_peval. unfold poly_sum.
    change (enumerate coeffs) with (enum_from 0 coeffs).
    rewrite (poly_sum_from coeffs x 0). cbn [Z.of_nat].
    rewrite Z.pow_0_r, Z.mul_1_l. reflexivity.
  - apply _eval_poly_range. exact Hp.
  - rewrite !_eval_poly_peval. apply (eqm_peval PRIME coeffs). apply eqm_mod.
  - reflexivity.
  - rewrite _eval_poly_peval. destruct coeffs as [|c q]; [reflexivity|].
    cbn [peval hd]. rewrite Z.mul_0_l, Z.add_0_r. reflexivity.
Qed.

End Dealing.

Lemma generate_shares_shape_witness :
  1 <= 3 <= 5 /\ 0 < 5 < 11 /\
  exists tail shares,
    generate_shares 11 5 5 3 (const_rng 2) =
      (OK shares, mkRng (draws (const_rng 2)) (cursor (const_rng 2) + Z.to_nat (3 - 1))) /\
    tail = map (fun i => draws (const_rng 2) (cursor (const_rng 2) + i) mod (11 - 1) + 1)
               (seq 0 (Z.to_nat (3 - 1))) /\
    Forall (fun a => 1 <= a <= 11 - 1) tail /\
    len (5 :: tail) = 3 /\
    len shares = 5 /\
    map fst shares = range 1 (5 + 1) /\
    map snd shares = map (_eval_poly 11 (5 :: tail)) (range 1 (5 + 1)) /\
    Forall (fun xy => 1 <= fst xy <= 5 /\ 0 <= snd xy < 11) shares.
Proof.
  split; [lia|]. split; [lia|].
  apply (generate_shares_shape 11 5 5 3 (const_rng 2)); lia.
Defined.

Lemma generate_shares_threshold_one_witness :
  1 <= 4 /\ 0 < 7 < 11 /\
  generate_shares 11 7 4 1 (const_rng 2) =
    (OK [(1, 7); (2, 7); (3, 7); (4, 7)], const_rng 2).
Proof.
  split; [lia|]. split; [lia|].
  apply (generate_shares_threshold_one 11 7 4 (const_rng 2)); lia.
Defined.

Lemma _eval_poly_is_polynomial_witness :
  0 < 11 /\ _eval_poly 11 [5; 3; 3] 2 = poly_sum [5; 3; 3] 2 mod 11.
Proof.
  split; [lia|]. apply (_eval_poly_is_polynomial 11 [5; 3; 3] 2). lia.
Defined.

(** * Reconstruction: when it succeeds, and its algebra *)

Lemma reconstruct_secret_unfold (PRIME : Z) (shares : list (Z * Z)) :
  shares <> [] ->
  reconstruct_secret PRIME shares None =
    _lagrange_interpolation_at_zero PRIME (map fst shares) (map snd shares).
Proof.
  intros Hne. unfold reconstruct_secret. destruct shares; [contradiction|reflexivity].
Qed.

Lemma value_at_in (pts : list (Z * Z)) (x y : Z) :
  NoDup (map fst pts) -> In (x, y) pts -> value_at pts x = y.
Proof.
  unfold value_at. induction pts as [|[x0 y0] pts IH]; intros Hnd Hin; [destruct Hin|].
  cbn [map fst] in Hnd. apply NoDup_cons_iff in Hnd as [Hnotin Hnd].
  cbn [find fst]. destruct (Z.eqb_spec x0 x) as [->|Hne].
  - destruct Hin as [E|Hin]; [inversion E; reflexivity|].
    exfalso. apply Hnotin. apply in_map_iff. exists (x, y). split; [reflexivity|exact Hin].
  - destruct Hin as [E|Hin]; [inversion E; congruence|]. exact (IH Hnd Hin).
Qed.

Section Algebra.

Variable PRIME : Z.
Hypothesis PRIME_ge_2 : 2 <= PRIME.

Lemma reconstruct_secret_value (shares : list (Z * Z)) (v : Z) :
  reconstruct_secret PRIME shares None = OK v ->
  shares <> [] /\ ~ In 0 (map fst shares) /\ NoDup (map fst shares) /\
  v = lag_run PRIME [] shares 0.
Proof.
  intros E.
  assert (Hne : shares <> []) by (intros ->; discriminate E).
  rewrite (reconstruct_secret_unfold PRIME shares Hne) in E.
  destruct (coordinates_dec (map fst shares)) as [Hbad|[Hz Hnd]].
  - rewrite (interpolation_rejects PRIME shares Hne Hbad) in E. discriminate.
  - rewrite (interpolation_runs PRIME PRIME_ge_2 shares Hne Hz Hnd) in E.
    injection E as <-. auto.
Qed.

Lemma reconstruct_secret_valid (shares : list (Z * Z)) :
  shares <> [] -> ~ In 0 (map fst shares) -> NoDup (map fst shares) ->
  reconstruct_secret PRIME shares None = OK (lag_run PRIME [] shares 0).
Proof.
  intros Hne Hz Hnd. rewrite (reconstruct_secret_unfold PRIME shares Hne).
  apply interpolation_runs; assumption.
Qed.

Lemma reconstruct_secret_in_range (shares : list (Z * Z)) (v : Z) :
  reconstruct_secret PRIME shares None = OK v -> 0 <= v < PRIME.
Proof.
  intros E. destruct (reconstruct_secret_value shares v E) as (_ & _ & _ & ->).
  apply lag_run_range; lia.
Qed.

(** X5: [reconstruct_secret] returns a value exactly when the threshold
    (if given) is met, the list is not empty, no x-coordinate is the integer
    0 and no x-coordinate is repeated; the value then lies in
    [[0, PRIME)]. *)
Theorem reconstruct_secret_succeeds_iff (shares : list (Z * Z)) (require_t : option Z) :
  ((exists v, reconstruct_secret PRIME shares require_t = OK v) <->
   (forall rt, require_t = Some rt -> rt <= len shares) /\
   shares <> [] /\ ~ In 0 (map fst shares) /\ NoDup (map fst shares)) /\
  (forall v, reconstruct_secret PRIME shares require_t = OK v -> 0 <= v < PRIME).
Proof.
  assert (Henough : (exists v, reconstruct_secret PRIME shares require_t = OK v) ->
                    forall rt, require_t = Some rt -> rt <= len shares).
  { intros (v & E) rt ->. unfold reconstruct_secret in E.
    destruct (Z.ltb_spec (len shares) rt); [discriminate|assumption]. }
  split; [split|].
  - intros Hok. pose proof (Henough Hok) as Hen. destruct Hok as (v & E).
    rewrite (reconstruct_secret_enough PRIME shares require_t Hen) in E.
    destruct (reconstruct_secret_value shares v E) as (Hne & Hz & Hnd & _). auto.
  - intros (Hen & Hne & Hz & Hnd). eexists.
    rewrite (reconstruct_secret_enough PRIME shares require_t Hen).
    apply reconstruct_secret_valid; assumption.
  - intros v E. pose proof (Henough (ex_intro _ v E)) as Hen.
    rewrite (reconstruct_secret_enough PRIME shares require_t Hen) in E.
    exact (reconstruct_secret_in_range shares v E).
Qed.

Lemma lag_run_sum (pts : list (Z * Z)) :
  forall pre acc,
    lag_run PRIME pre pts acc mod PRIME = (acc + lag_sum PRIME pre pts) mod PRIME.
Proof.
  induction pts as [|[x y] rest IH]; intros pre acc; cbn [lag_run lag_sum].
  - rewrite Z.add_0_r. reflexivity.
  - rewrite IH, Zplus_mod_idemp_l. f_equal. ring.
Qed.

Lemma lag_run_is_sum (pts : list (Z * Z)) :
  lag_run PRIME [] pts 0 = lag_sum PRIME [] pts mod PRIME.
Proof.
  rewrite <- (Z.mod_small (lag_run PRIME [] pts 0) PRIME)
    by (apply lag_run_range; lia).
  rewrite lag_run_sum. reflexivity.
Qed.

Lemma map_fst_add_shares (s1 s2 : list (Z * Z)) :
  map fst s1 = map fst s2 -> map fst (add_shares s1 s2) = map fst s1.
Proof.
  revert s2. induction s1 as [|[x y] s1 IH]; intros [|[x' y'] s2] E;
    try discriminate; [reflexivity|].
  cbn [map fst] in E. injection E as _ E.
  unfold add_shares in *. cbn [combine map fst snd]. rewrite (IH s2 E). reflexivity.
Qed.

Lemma lag_sum_add (s1 : list (Z * Z)) :
  forall s2 pre,
    map fst s1 = map fst s2 ->
    lag_sum PRIME pre (add_shares s1 s2) = lag_sum PRIME pre s1 + lag_sum PRIME pre s2.
Proof.
  induction s1 as [|[x y] s1 IH]; intros [|[x' y'] s2] pre E; try discriminate;
    [reflexivity|].
  cbn [map fst] in E. injection E as <- E.
  change (add_shares ((x, y) :: s1) ((x, y') :: s2))
    with ((x, y + y') :: add_shares s1 s2).
  cbn [lag_sum]. rewrite (IH s2 (pre ++ [x]) E), (map_fst_add_shares s1 s2 E), <- E.
  ring.
Qed.

Lemma lag_sum_scale (c : Z) (s : list (Z * Z)) :
  forall pre, lag_sum PRIME pre (scale_shares c s) = c * lag_sum PRIME pre s.
Proof.
  induction s as [|[x y] s IH]; intros pre; [cbn; ring|].
  change (scale_shares c ((x, y) :: s)) with ((x, c * y) :: scale_shares c s).
  cbn [lag_sum]. rewrite IH.
  replace (map fst (scale_shares c s)) with (map fst s)
    by (unfold scale_shares; rewrite map_map; reflexivity).
  ring.
Qed.

Lemma lag_sum_reduce (s : list (Z * Z)) :
  forall pre,
    lag_sum PRIME pre (map (fun xy => (fst xy, snd xy mod PRIME)) s) mod PRIME =
    lag_sum PRIME pre s mod PRIME.
Proof.
  induction s as [|[x y] s IH]; intros pre; [reflexivity|].
  cbn [map fst snd lag_sum]. rewrite map_map. cbn [fst].
  change (eqm PRIME
            (y mod PRIME * li0_of PRIME pre x (map fst s) +
             lag_sum PRIME (pre ++ [x]) (map (fun xy => (fst xy, snd xy mod PRIME)) s))
            (y * li0_of PRIME pre x (map fst s) + lag_sum PRIME (pre ++ [x]) s)).
  rewrite eqm_mod. specialize (IH (pre ++ [x])). fold (eqm PRIME) in IH.
  change (eqm PRIME (lag_sum PRIME (pre ++ [x]) (map (fun xy => (fst xy, snd xy mod PRIME)) s))
                    (lag_sum PRIME (pre ++ [x]) s)) in IH.
  rewrite IH. reflexivity.
Qed.

(** X6: reconstruction is linear in the share values.  For two share
    lists over the same x-coordinates that reconstruct [v1] and [v2], the
    value-wise sum reconstructs [(v1 + v2) mod PRIME], the list scaled by
    [c] reconstructs [(c * v1) mod PRIME], and reducing every value modulo
    [PRIME] changes nothing. *)
Theorem reconstruct_secret_linear (s1 s2 : list (Z * Z)) (v1 v2 c : Z) :
  map fst s1 = map fst s2 ->
  reconstruct_secret PRIME s1 None = OK v1 ->
  reconstruct_secret PRIME s2 None = OK v2 ->
  reconstruct_secret PRIME (add_shares s1 s2) None = OK ((v1 + v2) mod PRIME) /\
  reconstruct_secret PRIME (scale_shares c s1) None = OK ((c * v1) mod PRIME) /\
  reconstruct_secret PRIME (map (fun xy => (fst xy, snd xy mod PRIME)) s1) None = OK v1.
Proof.
  intros Exs E1 E2.
  destruct (reconstruct_secret_value s1 v1 E1) as (Hne & Hz & Hnd & ->).
  destruct (reconstruct_secret_value s2 v2 E2) as (_ & _ & _ & ->).
  assert (Hsame : forall s, map fst s = map fst s1 ->
            reconstruct_secret PRIME s None = OK (lag_sum PRIME [] s mod PRIME)).
  { intros s Es. rewrite <- lag_run_is_sum. apply reconstruct_secret_valid.
    - intros ->. destruct s1; [contradiction|discriminate].
    - rewrite Es. exact Hz.
    - rewrite Es. exact Hnd. }
  rewrite !lag_run_is_sum. split; [|split].
  - rewrite (Hsame _ (map_fst_add_shares s1 s2 Exs)), (lag_sum_add s1 s2 [] Exs).
    rewrite Zplus_mod. reflexivity.
  - rewrite Hsame by (unfold scale_shares; rewrite map_map; reflexivity).
    rewrite lag_sum_scale, Zmult_mod_idemp_r. reflexivity.
  - rewrite Hsame by (rewrite map_map; reflexivity).
    rewrite lag_sum_reduce. reflexivity.
Qed.

End Algebra.

Section Nodes.

Variable PRIME : Z.
Hypothesis PRIME_prime : Z.prime PRIME.

(** X7: the interpolation evaluates at zero.  For points taken from any
    polynomial with at most as many coefficients as there are points, at
    non-zero x-coordinates that are distinct modulo [PRIME],
    [_lagrange_interpolation_at_zero] returns the constant term modulo
    [PRIME]. *)
Theorem lagrange_interpolation_at_zero_correct (coeffs x_s : list Z) :
  x_s <> [] -> ~ In 0 x_s ->
  NoDup (map (fun v => v mod PRIME) x_s) ->
  (length coeffs <= length x_s)%nat ->
  _lagrange_interpolation_at_zero PRIME x_s (map (_eval_poly PRIME coeffs) x_s) =
    OK (hd 0 coeffs mod PRIME).
Proof.
  intros Hne Hz Hnd Hlen. pose proof (PRIME_ge_2 PRIME PRIME_prime) as Hp.
  set (pts := map (fun x => (x, _eval_poly PRIME coeffs x)) x_s).
  assert (Hfst : map fst pts = x_s)
    by (unfold pts; rewrite map_map; apply map_id).
  assert (Hsnd : map snd pts = map (_eval_poly PRIME coeffs) x_s)
    by (unfold pts; rewrite map_map; reflexivity).
  rewrite <- Hsnd, <- Hfst at 1.
  rewrite (interpolation_runs PRIME Hp pts).
  - rewrite (interpolation_recovers PRIME PRIME_prime coeffs pts).
    + destruct coeffs as [|c q]; [reflexivity|].
      cbn [peval hd]. rewrite Z.mul_0_l, Z.add_0_r. reflexivity.
    + rewrite Hfst. exact Hnd.
    + intros x y Hin. unfold pts in Hin.
      apply in_map_iff in Hin as (x0 & E & _). inversion E; reflexivity.
    + unfold pts. rewrite length_map. exact Hlen.
  - unfold pts. destruct x_s; [contradiction|discriminate].
  - rewrite Hfst. exact Hz.
  - rewrite Hfst. exact (NoDup_map_inv _ _ Hnd).
Qed.

(** X8: reconstruction does not depend on the order of the shares.  For
    any share list, with arbitrary values, whose x-coordinates are non-zero
    and distinct modulo [PRIME], every reordering reconstructs the same
    value. *)
Theorem reconstruct_secret_order_independent (shares reordered : list (Z * Z)) :
  Permutation shares reordered ->
  shares <> [] -> ~ In 0 (map fst shares) ->
  NoDup (map (fun v => v mod PRIME) (map fst shares)) ->
  exists v,
    reconstruct_secret PRIME shares None = OK v /\
    reconstruct_secret PRIME reordered None = OK v.
Proof.
  intros Hperm Hne Hz Hndm. pose proof (PRIME_ge_2 PRIME PRIME_prime) as Hp.
  pose proof (NoDup_map_inv _ _ Hndm) as Hnd.
  pose proof (Permutation_map fst Hperm) as Hpx.
  assert (Hne' : reordered <> []).
  { intros ->. apply Permutation_sym, Permutation_nil in Hperm. contradiction. }
  assert (Hz' : ~ In 0 (map fst reordered)).
  { intros H. apply Hz. exact (Permutation_in 0 (Permutation_sym Hpx) H). }
  assert (Hnd' : NoDup (map fst reordered)) by exact (Permutation_NoDup Hpx Hnd).
  assert (Hndm' : NoDup (map (fun v => v mod PRIME) (map fst reordered)))
    by exact (Permutation_NoDup (Permutation_map _ Hpx) Hndm).
  exists (lag_run PRIME [] shares 0).
  split; [apply reconstruct_secret_valid; assumption|].
  rewrite (reconstruct_secret_valid PRIME Hp reordered Hne' Hz' Hnd').
  f_equal.
  set (L1 := lag_poly PRIME [] shares). set (L2 := lag_poly PRIME [] reordered).
  assert (HG : forall z, eqm PRIME (peval (padd L1 (pscale (-1) L2)) z) 0).
  { apply (poly_roots PRIME PRIME_prime (map fst shares)).
    - rewrite length_padd, length_pscale, length_map.
      pose proof (lag_poly_length PRIME shares []) as H1.
      pose proof (lag_poly_length PRIME reordered []) as H2.
      pose proof (Permutation_length Hperm) as Hl.
      fold L1 in H1. fold L2 in H2. cbn [length] in H1, H2. lia.
    - exact Hndm.
    - intros r Hr. rewrite peval_padd, peval_pscale.
      destruct (lag_poly_nodes PRIME PRIME_prime (value_at shares) shares [] Hndm)
        with (r := r) as [_ H1].
      { intros x y Hin. rewrite (value_at_in shares x y Hnd Hin). reflexivity. }
      destruct (lag_poly_nodes PRIME PRIME_prime (value_at shares) reordered [] Hndm')
        with (r := r) as [_ H2].
      { intros x y Hin.
        rewrite (value_at_in shares x y Hnd (Permutation_in _ (Permutation_sym Hperm) Hin)).
        reflexivity. }
      fold L1 in H1. fold L2 in H2.
      rewrite (H1 Hr), (H2 (Permutation_in r Hpx Hr)).
      replace (value_at shares r + -1 * value_at shares r) with 0 by ring.
      reflexivity. }
  assert (E : eqm PRIME (lag_run PRIME [] reordered 0) (lag_run PRIME [] shares 0)).
  { rewrite !lag_run_eqm, !Z.add_0_l. fold L1 L2.
    specialize (HG 0). rewrite peval_padd, peval_pscale in HG.
    replace (peval L1 0) with ((peval L1 0 + -1 * peval L2 0) + peval L2 0) by ring.
    rewrite HG. reflexivity. }
  unfold eqm in E. rewrite !Z.mod_small in E by (apply lag_run_range; lia).
  exact E.
Qed.

End Nodes.

(** * Signing through shares: how the steps compose *)

Lemma keccak_challenge_digest (PRIME : Z) (keccak : list byte -> list byte)
    (r : Z) (message : str) (h : Z) (d : list byte) :
  keccak_challenge PRIME keccak r message = OK (h, d) ->
  d = keccak (utf8 message).
Proof.
  unfold keccak_challenge.
  destruct (negb ((0 <? r) && (r <? PRIME))); [discriminate|].
  unfold keccak_message.
  destruct (utf8_encode message) as [data|e] eqn:Ed; cbn [bind]; [|discriminate].
  apply utf8_encode_inv in Ed as [_ ->].
  destruct (to_bytes r 32); cbn [bind]; [|discriminate].
  intros E. injection E as _ <-. reflexivity.
Qed.

Lemma sign_message_rechallenge (PRIME GENERATOR : Z) (keccak : list byte -> list byte)
    (priv : Z) (message : str) (deterministic : bool) (g g' : rng) (r s : Z) :
  sign_message PRIME GENERATOR keccak priv message deterministic g = (OK (r, s), g') ->
  exists h, keccak_challenge PRIME keccak r message = OK (h, keccak (utf8 message)).
Proof.
  unfold sign_message.
  destruct (negb ((0 <? priv) && (priv <? PRIME))); [discriminate|].
  unfold bindM at 1. unfold lift at 1.
  destruct (keccak_challenge PRIME keccak 1 message) as [[h0 msg_hash]|e];
    [|discriminate].
  unfold bindM at 1.
  destruct ((if deterministic
             then lift (_det_k PRIME keccak priv msg_hash)
             else bindM (randbelow (PRIME - 2)) (fun v => retM (v + 1))) g)
    as [[k|e] g1]; [|discriminate].
  unfold bindM at 1. unfold lift at 1.
  destruct (pow3 GENERATOR k PRIME) as [r0|e]; [|discriminate].
  unfold bindM, lift, retM.
  destruct (keccak_challenge PRIME keccak r0 message) as [[h d]|e] eqn:Eh;
    [|discriminate].
  intros E. injection E as <- _ _. exists h.
  rewrite (keccak_challenge_digest _ _ _ _ _ _ Eh) in Eh. exact Eh.
Qed.

Section ThresholdComposition.

Variable PRIME : Z.
Variable GENERATOR : Z.
Variable keccak : list byte -> list byte.
Hypothesis PRIME_ge_2 : 2 <= PRIME.

Lemma threshold_sign_steps (shares : list (Z * Z)) (message : str)
    (deterministic : bool) (require_t : option Z) (g : rng) :
  (forall rt, require_t = Some rt -> len shares < rt ->
     threshold_sign PRIME GENERATOR keccak shares message deterministic require_t g =
       (Raise (ValueError (need_at_least rt (len shares))), g)) /\
  ((forall rt, require_t = Some rt -> rt <= len shares) ->
   (forall e, reconstruct_secret PRIME shares None = Raise e ->
      threshold_sign PRIME GENERATOR keccak shares message deterministic require_t g =
        (Raise e, g)) /\
   (reconstruct_secret PRIME shares None = OK 0 ->
      threshold_sign PRIME GENERATOR keccak shares message deterministic require_t g =
        (Raise (ValueError "Reconstructed secret out of range."), g)) /\
   (forall priv, reconstruct_secret PRIME shares None = OK priv -> priv <> 0 ->
      0 < priv < PRIME /\
      threshold_sign PRIME GENERATOR keccak shares message deterministic require_t g =
        match sign_message PRIME GENERATOR keccak priv message deterministic g with
        | (OK (r, s), g') => (OK (r, s, keccak (utf8 message)), g')
        | (Raise e, g') => (Raise e, g')
        end)).
Proof.
  split.
  - intros rt -> Hlt. unfold threshold_sign.
    destruct (Z.ltb_spec (len shares) rt); [reflexivity|lia].
  - intros Hen.
    assert (Hpass : match require_t with
                    | Some rt => len shares <? rt
                    | None => false
                    end = false).
    { destruct require_t as [rt|]; [|reflexivity].
      apply Z.ltb_ge. exact (Hen rt eq_refl). }
    split; [|split].
    + intros e E. unfold threshold_sign. rewrite Hpass.
      unfold bindM, lift. rewrite E. reflexivity.
    + intros E. unfold threshold_sign. rewrite Hpass.
      unfold bindM at 1. unfold lift at 1. rewrite E. reflexivity.
    + intros priv E Hnz.
      assert (Hr : 0 < priv < PRIME).
      { pose proof (reconstruct_secret_in_range PRIME PRIME_ge_2 shares priv E). lia. }
      split; [exact Hr|].
      unfold threshold_sign. rewrite Hpass.
      unfold bindM at 1. unfold lift at 1. rewrite E.
      rewrite (proj2 (range_check_true 0 priv PRIME) Hr).
      unfold bindM at 1.
      destruct (sign_message PRIME GENERATOR keccak priv message deterministic g)
        as [[[r s]|e] g'] eqn:Es; [|reflexivity].
      destruct (sign_message_rechallenge _ _ _ _ _ _ _ _ _ _ Es) as (h & Eh).
      unfold bindM, lift, retM. rewrite Eh. reflexivity.
Qed.

(** X9: [threshold_sign] checks the share count first, then reconstructs,
    then signs.  Too few shares or a failed reconstruction raise that error;
    a reconstructed value of 0 raises the out-of-range error; any other
    reconstructed value [priv] is used as the key, and the call returns what
    [sign_message] returns for [priv], with the message digest added.  The
    random source is read by [sign_message] only. *)
Theorem threshold_sign_composition (shares : list (Z * Z)) (message : str)
    (deterministic : bool) (require_t : option Z) (g : rng) :
  (forall rt, require_t = Some rt -> len shares < rt ->
     threshold_sign PRIME GENERATOR keccak shares message deterministic require_t g =
       (Raise (ValueError (need_at_least rt (len shares))), g)) /\
  ((forall rt, require_t = Some rt -> rt <= len shares) ->
   (forall e, reconstruct_secret PRIME shares None = Raise e ->
      threshold_sign PRIME GENERATOR keccak shares message deterministic require_t g =
        (Raise e, g)) /\
   (reconstruct_secret PRIME shares None = OK 0 ->
      threshold_sign PRIME GENERATOR keccak shares message deterministic require_t g =
        (Raise (ValueError "Reconstructed secret out of range."), g)) /\
   (forall priv, reconstruct_secret PRIME shares None = OK priv -> priv <> 0 ->
      0 < priv < PRIME /\
      threshold_sign PRIME GENERATOR keccak shares message deterministic require_t g =
        match sign_message PRIME GENERATOR keccak priv message deterministic g with
        | (OK (r, s), g') => (OK (r, s, keccak (utf8 message)), g')
        | (Raise e, g') => (Raise e, g')
        end)).
Proof.
  exact (threshold_sign_steps shares message deterministic require_t g).
Qed.

End ThresholdComposition.

Section SingleShare.

Variable PRIME : Z.
Variable GENERATOR : Z.
Variable keccak : list byte -> list byte.
Hypothesis PRIME_ge_2 : 2 <= PRIME.

Lemma single_share_value (x y : Z) :
  x <> 0 -> reconstruct_secret PRIME [(x, y)] None = OK (y mod PRIME).
Proof.
  intros Hx. rewrite (reconstruct_secret_valid PRIME PRIME_ge_2).
  - cbn [lag_run map fst]. unfold li0_of, inv_denom_of. cbn [app map].
    unfold PI. cbn [fold_left].
    rewrite Z.pow_1_l, Z.mod_1_l, Z.mul_1_l, Z.mod_1_l by lia.
    rewrite Z.mul_1_r, Z.add_0_l. reflexivity.
  - discriminate.
  - cbn. intros [E|[]]. congruence.
  - cbn. constructor; [intros []|constructor].
Qed.

(** X10: without [require_t], [threshold_sign] accepts a single share
    [(x, y)] with [x <> 0] whatever the dealer's threshold was: it signs
    under the key [y mod PRIME], and raises the out-of-range error only when
    [y] is a multiple of [PRIME]. *)
Theorem threshold_sign_single_share (x y : Z) (message : str)
    (deterministic : bool) (g : rng) :
  x <> 0 ->
  (y mod PRIME = 0 ->
   threshold_sign PRIME GENERATOR keccak [(x, y)] message deterministic None g =
     (Raise (ValueError "Reconstructed secret out of range."), g)) /\
  (y mod PRIME <> 0 ->
   threshold_sign PRIME GENERATOR keccak [(x, y)] message deterministic None g =
     match sign_message PRIME GENERATOR keccak (y mod PRIME) message deterministic g with
     | (OK (r, s), g') => (OK (r, s, keccak (utf8 message)), g')
     | (Raise e, g') => (Raise e, g')
     end).
Proof.
  intros Hx.
  destruct (threshold_sign_steps PRIME GENERATOR keccak PRIME_ge_2
              [(x, y)] message deterministic None g) as [_ Hcomp].
  destruct Hcomp as (_ & Hzero & Hkey); [discriminate|].
  split.
  - intros E. apply Hzero. rewrite (single_share_value x y Hx), E. reflexivity.
  - intros Hnz. exact (proj2 (Hkey (y mod PRIME) (single_share_value x y Hx) Hnz)).
Qed.

End SingleShare.

(** * Keys and signatures *)

Lemma order_check_sound (p g : Z) :
  order_check p g = true -> forall e, 0 < e < p - 1 -> g ^ e mod p <> 1.
Proof.
  unfold order_check. intros H e He. rewrite forallb_forall in H.
  specialize (H e (proj2 (in_range 1 (p - 1) e) ltac:(lia))).
  apply negb_true_iff, Z.eqb_neq in H. exact H.
Qed.

Section KeyGeneration.

Variable PRIME : Z.
Variable GENERATOR : Z.

Lemma generate_keypair_run (g : rng) :
  (PRIME <= 2 ->
   generate_keypair PRIME GENERATOR g =
     (Raise (ValueError "Upper bound must be positive."), g)) /\
  (2 < PRIME ->
   let priv := draws g (cursor g) mod (PRIME - 2) + 1 in
   generate_keypair PRIME GENERATOR g =
     (OK (priv, GENERATOR ^ priv mod PRIME), mkRng (draws g) (S (cursor g))) /\
   1 <= priv <= PRIME - 2 /\
   0 <= GENERATOR ^ priv mod PRIME < PRIME /\
   pubkey_from_secret PRIME GENERATOR priv = OK (GENERATOR ^ priv mod PRIME)).
Proof.
  split.
  - intros Hp. unfold generate_keypair, bindM, randbelow.
    destruct (Z.leb_spec (PRIME - 2) 0); [reflexivity|lia].
  - intros Hp priv.
    assert (Hk : 1 <= priv <= PRIME - 2).
    { unfold priv.
      pose proof (Z.mod_pos_bound (draws g (cursor g)) (PRIME - 2) ltac:(lia)). lia. }
    split; [|split; [exact Hk|split]].
    + unfold generate_keypair. unfold bindM at 1. unfold randbelow.
      destruct (Z.leb_spec (PRIME - 2) 0); [lia|].
      fold priv. unfold bindM, lift, retM.
      rewrite pow3_nonneg by lia. reflexivity.
    + apply Z.mod_pos_bound. lia.
    + unfold pubkey_from_secret.
      rewrite (proj2 (range_check_true 0 priv PRIME)) by lia.
      apply pow3_nonneg; lia.
Qed.

(** X11: [generate_keypair] reads one draw and returns a private key in
    [[1, PRIME - 2]] together with [GENERATOR ^ priv mod PRIME], the key that
    [pubkey_from_secret] computes for it; for a modulus of at most 2 it
    raises the error of [secrets.randbelow]. *)
Theorem generate_keypair_pair (g : rng) :
  (PRIME <= 2 ->
   generate_keypair PRIME GENERATOR g =
     (Raise (ValueError "Upper bound must be positive."), g)) /\
  (2 < PRIME ->
   let priv := draws g (cursor g) mod (PRIME - 2) + 1 in
   generate_keypair PRIME GENERATOR g =
     (OK (priv, GENERATOR ^ priv mod PRIME), mkRng (draws g) (S (cursor g))) /\
   1 <= priv <= PRIME - 2 /\
   0 <= GENERATOR ^ priv mod PRIME < PRIME /\
   pubkey_from_secret PRIME GENERATOR priv = OK (GENERATOR ^ priv mod PRIME)).
Proof. exact (generate_keypair_run g). Qed.

(** [pubkey_from_secret] raises its range error exactly outside
    [0 < secret < PRIME] and otherwise returns
    [GENERATOR ^ secret mod PRIME]. *)
Lemma pubkey_from_secret_cases (secret : Z) :
  (~ (0 < secret < PRIME) ->
   pubkey_from_secret PRIME GENERATOR secret =
     Raise (ValueError "secret must be in 1..PRIME-1.")) /\
  (0 < secret < PRIME ->
   pubkey_from_secret PRIME GENERATOR secret = OK (GENERATOR ^ secret mod PRIME) /\
   0 <= GENERATOR ^ secret mod PRIME < PRIME).
Proof.
  split; intros Hs; unfold pubkey_from_secret.
  - rewrite (proj2 (range_check_false 0 secret PRIME) Hs). reflexivity.
  - rewrite (proj2 (range_check_true 0 secret PRIME) Hs).
    split; [apply pow3_nonneg; lia|apply Z.mod_pos_bound; lia].
Qed.

End KeyGeneration.

Section SchnorrFacts.

Variable PRIME : Z.
Variable GENERATOR : Z.
Variable keccak : list byte -> list byte.

Hypothesis PRIME_prime : Z.prime PRIME.
Hypothesis PRIME_odd : 2 < PRIME.
Hypothesis PRIME_fits : PRIME <= 2 ^ 256.
Hypothesis GENERATOR_unit : GENERATOR mod PRIME <> 0.

(** X12: [sign_message] raises its range error, without reading the
    random source, exactly when [priv] is outside [0 < priv < PRIME];
    otherwise, for a message that has UTF-8 bytes, it returns [(r, s)] with
    [0 < r < PRIME] and [0 <= s <= PRIME - 2], reading one draw in random
    mode and none in deterministic mode; for a message that has none, the
    first digest call raises before the random source is read. *)
Theorem sign_message_cases (priv : Z) (message : str) (deterministic : bool)
    (g : rng) :
  (~ (0 < priv < PRIME) ->
   sign_message PRIME GENERATOR keccak priv message deterministic g =
     (Raise (ValueError "priv must be in range 1..PRIME-1"), g)) /\
  (0 < priv < PRIME ->
   encodable message ->
   exists r s,
     sign_message PRIME GENERATOR keccak priv message deterministic g =
       (OK (r, s), if deterministic then g else mkRng (draws g) (S (cursor g))) /\
     0 < r < PRIME /\ 0 <= s <= PRIME - 2) /\
  (0 < priv < PRIME ->
   ~ encodable message ->
   exists start stop,
     sign_message PRIME GENERATOR keccak priv message deterministic g =
       (Raise (UnicodeEncodeError "utf-8" start stop "surrogates not allowed"), g)).
Proof.
  split; [|split].
  - intros Hp. unfold sign_message.
    rewrite (proj2 (range_check_false 0 priv PRIME) Hp). reflexivity.
  - intros Hp He.
    rewrite (sign_message_value PRIME GENERATOR keccak PRIME_prime PRIME_odd
               PRIME_fits GENERATOR_unit priv message deterministic g Hp He).
    eexists _, _. split; [reflexivity|]. split.
    + apply (generator_pow_range PRIME GENERATOR PRIME_prime PRIME_odd GENERATOR_unit).
      pose proof (nonce_of_range PRIME keccak PRIME_odd deterministic priv message g).
      lia.
    + match goal with
      | |- context [?a mod (PRIME - 1)] =>
          pose proof (Z.mod_pos_bound a (PRIME - 1) ltac:(lia))
      end. lia.
  - intros Hp He.
    destruct (keccak_challenge_unencodable PRIME keccak 1 message ltac:(lia) He)
      as (start & stop & H).
    exists start, stop. unfold sign_message.
    rewrite (proj2 (range_check_true 0 priv PRIME) Hp).
    unfold bindM at 1. unfold lift at 1. rewrite H. reflexivity.
Qed.

(** X13: a freshly generated key pair signs and verifies: for the pair
    that [generate_keypair] returns and the signature that [sign_message]
    then returns on a message that has UTF-8 bytes, [verify_signature]
    answers [true] unless [s = 0]. *)
Theorem keypair_signature_verifies (message : str) (deterministic : bool) (g : rng) :
  encodable message ->
  exists priv pub r s g1 g2,
    generate_keypair PRIME GENERATOR g = (OK (priv, pub), g1) /\
    sign_message PRIME GENERATOR keccak priv message deterministic g1 = (OK (r, s), g2) /\
    verify_signature PRIME GENERATOR keccak pub message r s = OK (negb (s =? 0)).
Proof.
  intros He.
  destruct (generate_keypair_run PRIME GENERATOR g) as [_ Hgen].
  destruct (Hgen PRIME_odd) as (Egen & Hk & _ & _). clear Hgen.
  set (priv := draws g (cursor g) mod (PRIME - 2) + 1) in *.
  destruct (signature_verifies PRIME GENERATOR keccak PRIME_prime PRIME_odd
              PRIME_fits GENERATOR_unit priv message deterministic
              (mkRng (draws g) (S (cursor g))) ltac:(lia) He)
    as (r & s & g2 & Es & _ & Hv).
  exists priv, (GENERATOR ^ priv mod PRIME), r, s, (mkRng (draws g) (S (cursor g))), g2.
  split; [exact Egen|]. split; [exact Es|exact Hv].
Qed.

(** X14: shares dealt for a secret sign for it: with at least [t]
    distinct dealt shares (of at most [PRIME]) and a message that has UTF-8
    bytes, [threshold_sign] returns the signature that [sign_message]
    returns for the secret, together with the message digest, and
    [verify_signature] accepts it under [pubkey_from_secret secret] unless
    [s = 0]. *)
Theorem dealt_shares_sign_for_secret (secret n t : Z) (g0 : rng) :
  0 < secret < PRIME -> 1 <= t <= n -> n <= PRIME ->
  exists shares g0' pub,
    generate_shares PRIME secret n t g0 = (OK shares, g0') /\
    pubkey_from_secret PRIME GENERATOR secret = OK pub /\
    forall subset require_t message deterministic g,
      NoDup subset -> incl subset shares -> t <= len subset ->
      (forall rt, require_t = Some rt -> rt <= len subset) ->
      encodable message ->
      exists r s g',
        threshold_sign PRIME GENERATOR keccak subset message deterministic require_t g =
          (OK (r, s, keccak (utf8 message)), g') /\
        sign_message PRIME GENERATOR keccak secret message deterministic g =
          (OK (r, s), g') /\
        verify_signature PRIME GENERATOR keccak pub message r s = OK (negb (s =? 0)).
Proof.
  intros Hs Ht Hn.
  destruct (threshold_signature_verifies PRIME GENERATOR keccak PRIME_prime PRIME_odd
              PRIME_fits GENERATOR_unit secret n t g0 Hs Ht Hn)
    as (shares & g0' & Egen & Hsub).
  exists shares, g0', (GENERATOR ^ secret mod PRIME).
  split; [exact Egen|]. split; [|exact Hsub].
  unfold pubkey_from_secret.
  rewrite (proj2 (range_check_true 0 secret PRIME) Hs). apply pow3_nonneg; lia.
Qed.

(** X15: reusing a nonce exposes the key.  Two random-mode signatures
    made with the same key from the same state of the random source, on any
    two messages that have UTF-8 bytes, share [r], and the difference of
    their [s] components is the key times the difference of the two
    challenges, modulo [PRIME - 1]. *)
Theorem nonce_reuse_relation (priv : Z) (m1 m2 : str) (g : rng) :
  0 < priv < PRIME ->
  encodable m1 -> encodable m2 ->
  exists r s1 s2,
    fst (sign_message PRIME GENERATOR keccak priv m1 false g) = OK (r, s1) /\
    fst (sign_message PRIME GENERATOR keccak priv m2 false g) = OK (r, s2) /\
    (s1 - s2) mod (PRIME - 1) =
    ((challenge_of PRIME keccak r m1 - challenge_of PRIME keccak r m2) * priv)
      mod (PRIME - 1).
Proof.
  intros Hp He1 He2.
  rewrite (sign_message_value PRIME GENERATOR keccak PRIME_prime PRIME_odd
             PRIME_fits GENERATOR_unit priv m1 false g Hp He1).
  rewrite (sign_message_value PRIME GENERATOR keccak PRIME_prime PRIME_odd
             PRIME_fits GENERATOR_unit priv m2 false g Hp He2).
  cbn [fst]. unfold nonce_of.
  set (k := draws g (cursor g) mod (PRIME - 2) + 1).
  set (r := GENERATOR ^ k mod PRIME).
  eexists r, _, _. split; [reflexivity|]. split; [reflexivity|].
  change (eqm (PRIME - 1)
            ((k + challenge_of PRIME keccak r m1 * priv) mod (PRIME - 1) -
             (k + challenge_of PRIME keccak r m2 * priv) mod (PRIME - 1))
            ((challenge_of PRIME keccak r m1 - challenge_of PRIME keccak r m2) * priv)).
  rewrite !eqm_mod.
  match goal with |- eqm _ ?l ?r' => replace l with r' by ring end.
  reflexivity.
Qed.

Lemma verify_signature_accepts_inv (pub : Z) (message : str) (r s : Z) :
  verify_signature PRIME GENERATOR keccak pub message r s = OK true ->
  encodable message /\
  0 < pub < PRIME /\ 0 < r < PRIME /\ 0 < s < PRIME - 1 /\
  GENERATOR ^ s mod PRIME =
    (r * (pub ^ challenge_of PRIME keccak r message mod PRIME)) mod PRIME.
Proof.
  unfold verify_signature.
  destruct (negb ((0 <? pub) && (pub <? PRIME))) eqn:Ep; [discriminate|].
  destruct (negb ((0 <? r) && (r <? PRIME))) eqn:Er; [discriminate|].
  destruct (negb ((0 <? s) && (s <? PRIME - 1))) eqn:Es; [discriminate|].
  apply range_check_true in Ep, Er, Es.
  destruct (encodable_dec message) as [He|He].
  2:{ destruct (keccak_challenge_unencodable PRIME keccak r message Er He)
        as (start & stop & ->). discriminate. }
  rewrite (keccak_challenge_value PRIME keccak PRIME_fits r message Er He). cbn [bind].
  assert (Hh : 0 <= challenge_of PRIME keccak r message < PRIME)
    by (apply Z.mod_pos_bound; lia).
  rewrite !pow3_nonneg by lia. cbn [bind].
  intros E. injection E as E. apply Z.eqb_eq in E. auto.
Qed.

Hypothesis GENERATOR_order :
  forall e, 0 < e < PRIME - 1 -> GENERATOR ^ e mod PRIME <> 1.

Lemma generator_pow_injective (a b : Z) :
  0 <= a <= b -> b - a < PRIME - 1 ->
  GENERATOR ^ a mod PRIME = GENERATOR ^ b mod PRIME -> a = b.
Proof.
  intros Hab Hd E.
  destruct (Z.eq_dec a b) as [|Hne]; [assumption|]. exfalso.
  apply (GENERATOR_order (b - a)); [lia|].
  assert (E' : eqm PRIME (GENERATOR ^ a * (GENERATOR ^ (b - a) - 1)) 0).
  { replace (GENERATOR ^ a * (GENERATOR ^ (b - a) - 1))
      with (GENERATOR ^ (a + (b - a)) - GENERATOR ^ a)
      by (rewrite Z.pow_add_r by lia; ring).
    replace (a + (b - a)) with b by ring.
    unfold eqm. rewrite Zminus_mod, <- E, Z.sub_diag. reflexivity. }
  destruct (eqm_integral PRIME PRIME_prime _ _ E') as [H0|H0].
  - exfalso.
    pose proof (generator_pow_range PRIME GENERATOR PRIME_prime PRIME_odd GENERATOR_unit a
                  ltac:(lia)) as Hr.
    apply (proj1 (eqm_zero_iff PRIME _)) in H0. lia.
  - apply (eqm_sub_zero PRIME) in H0. unfold eqm in H0.
    rewrite H0. apply Z.mod_1_l. lia.
Qed.

Lemma verify_signature_scalar_determined (pub : Z) (message : str) (r s s' : Z) :
  verify_signature PRIME GENERATOR keccak pub message r s = OK true ->
  verify_signature PRIME GENERATOR keccak pub message r s' = OK true ->
  s = s'.
Proof.
  intros H1 H2.
  destruct (verify_signature_accepts_inv pub message r s H1) as (_ & _ & _ & Hs & E1).
  destruct (verify_signature_accepts_inv pub message r s' H2) as (_ & _ & _ & Hs' & E2).
  rewrite <- E2 in E1.
  destruct (Z_le_dec s s').
  - apply generator_pow_injective; (lia || assumption).
  - symmetry. apply generator_pow_injective; (lia || auto).
Qed.

Lemma verify_signature_returns (pub : Z) (message : str) (r s : Z) :
  encodable message ->
  exists b, verify_signature PRIME GENERATOR keccak pub message r s = OK b.
Proof.
  intros He. unfold verify_signature.
  destruct (negb ((0 <? pub) && (pub <? PRIME))) eqn:Ep; [eauto|].
  destruct (negb ((0 <? r) && (r <? PRIME))) eqn:Er; [eauto|].
  destruct (negb ((0 <? s) && (s <? PRIME - 1))) eqn:Es; [eauto|].
  apply range_check_true in Ep, Er, Es.
  rewrite (keccak_challenge_value PRIME keccak PRIME_fits r message Er He). cbn [bind].
  assert (Hh : 0 <= challenge_of PRIME keccak r message < PRIME)
    by (apply Z.mod_pos_bound; lia).
  rewrite !pow3_nonneg by lia. cbn [bind]. eauto.
Qed.

(** X16: when [GENERATOR] has order [PRIME - 1], changing the [s]
    component of an accepted signature is always detected: for a given
    public key, message and [r], at most one [s] is accepted, and
    [verify_signature] returns [false] for every other one. *)
Theorem verify_signature_scalar_unique (pub : Z) (message : str) (r s : Z) :
  verify_signature PRIME GENERATOR keccak pub message r s = OK true ->
  forall s', s' <> s ->
    verify_signature PRIME GENERATOR keccak pub message r s' = OK false.
Proof.
  intros H1 s' Hne.
  pose proof (proj1 (verify_signature_accepts_inv pub message r s H1)) as He.
  destruct (verify_signature_returns pub message r s' He) as ([|] & E); [|exact E].
  exfalso. apply Hne. symmetry.
  exact (verify_signature_scalar_determined pub message r s s' H1 E).
Qed.

(** X17: when [GENERATOR] has order [PRIME - 1], distinct secrets have
    distinct public keys: [pubkey_from_secret] is injective. *)
Theorem pubkey_from_secret_injective (a b pub : Z) :
  pubkey_from_secret PRIME GENERATOR a = OK pub ->
  pubkey_from_secret PRIME GENERATOR b = OK pub ->
  a = b.
Proof.
  unfold pubkey_from_secret. intros Ha Hb.
  destruct (negb ((0 <? a) && (a <? PRIME))) eqn:Ea; [discriminate|].
  destruct (negb ((0 <? b) && (b <? PRIME))) eqn:Eb; [discriminate|].
  apply range_check_true in Ea, Eb.
  rewrite pow3_nonneg in Ha, Hb by lia.
  injection Ha as Ha. injection Hb as Hb. rewrite <- Hb in Ha.
  destruct (Z_le_dec a b).
  - apply generator_pow_injective; (lia || assumption).
  - symmetry. apply generator_pow_injective; (lia || auto).
Qed.

End SchnorrFacts.

(** * The digest written to an artifact and read back *)

Lemma below_16 (P : nat -> Prop) :
  P 0%nat -> P 1%nat -> P 2%nat -> P 3%nat -> P 4%nat -> P 5%nat -> P 6%nat ->
  P 7%nat -> P 8%nat -> P 9%nat -> P 10%nat -> P 11%nat -> P 12%nat ->
  P 13%nat -> P 14%nat -> P 15%nat ->
  forall v, (v < 16)%nat -> P v.
Proof.
  intros H0 H1 H2 H3 H4 H5 H6 H7 H8 H9 H10 H11 H12 H13 H14 H15 v Hv.
  do 16 (destruct v as [|v]; [assumption|]). lia.
Qed.

Lemma hex_digit_facts (v : nat) :
  (v < 16)%nat ->
  digit_value (hex_digit v) = Some v /\
  is_space (hex_digit v) = false /\
  Nat.leb 128 (nat_of_ascii (hex_digit v)) = false /\
  Ascii.eqb (hex_digit v) "x" = false.
Proof.
  revert v. apply below_16; vm_compute; repeat split; reflexivity.
Qed.

Lemma byte_halves (b : byte) :
  let n := N.to_nat (Byte.to_N b) in
  (n / 16 < 16)%nat /\ (n mod 16 < 16)%nat /\
  byte_of_Z (Z.of_nat (16 * (n / 16) + n mod 16)) = b.
Proof.
  intros n. pose proof (Byte.to_N_bounded b) as Hb.
  assert (Hn : (n < 256)%nat) by (unfold n; lia).
  split; [apply Nat.Div0.div_lt_upper_bound; lia|].
  split; [apply Nat.mod_upper_bound; lia|].
  rewrite <- (Nat.div_mod_eq n 16). unfold n. rewrite N_nat_Z.
  apply byte_of_Z_of_byte.
Qed.

Lemma first_non_ascii_hex (bs : list byte) :
  forall pos, first_non_ascii pos (hex bs) = None.
Proof.
  induction bs as [|b bs IH]; intros pos; [reflexivity|].
  destruct (byte_halves b) as (Hhi & Hlo & _).
  destruct (hex_digit_facts _ Hhi) as (_ & _ & Ehi & _).
  destruct (hex_digit_facts _ Hlo) as (_ & _ & Elo & _).
  cbn [hex first_non_ascii]. rewrite Ehi, Elo. apply IH.
Qed.

Lemma fromhex_from_hex (bs : list byte) :
  forall pos, fromhex_from pos (hex bs) = OK bs.
Proof.
  induction bs as [|b bs IH]; intros pos; [reflexivity|].
  destruct (byte_halves b) as (Hhi & Hlo & Hb).
  destruct (hex_digit_facts _ Hhi) as (Dhi & Shi & _ & _).
  destruct (hex_digit_facts _ Hlo) as (Dlo & _ & _ & _).
  cbn [hex fromhex_from]. rewrite Shi, Dhi, Dlo, IH. cbn [bind].
  rewrite Hb. reflexivity.
Qed.

Lemma fromhex_hex (bs : list byte) : fromhex (hex bs) = OK bs.
Proof.
  unfold fromhex. rewrite first_non_ascii_hex. apply fromhex_from_hex.
Qed.

Lemma hex_no_prefix (bs : list byte) : prefix "0x" (hex bs) = false.
Proof.
  destruct bs as [|b bs]; [reflexivity|].
  destruct (byte_halves b) as (_ & Hlo & _).
  destruct (hex_digit_facts _ Hlo) as (_ & _ & _ & Ex).
  cbn [hex prefix].
  destruct (ascii_dec "0" (hex_digit (N.to_nat (Byte.to_N b) / 16))); [|reflexivity].
  destruct (ascii_dec "x" (hex_digit (N.to_nat (Byte.to_N b) mod 16))) as [E|];
    [|reflexivity].
  rewrite <- E in Ex. discriminate Ex.
Qed.

(** X18: the digest survives the artifact.  [to_bytes32] applied to the
    ["msg_hash"] text that the signing script writes (["0x"] followed by the
    hexadecimal digits), or to the digits alone, returns the original bytes
    when there are 32 of them and raises the length error otherwise; it
    never returns anything that is not 32 bytes long. *)
Theorem to_bytes32_round_trip (msg_hash : list byte) :
  (length msg_hash = 32%nat ->
   to_bytes32 (artifact_msg_hash msg_hash) = OK msg_hash /\
   to_bytes32 (hex msg_hash) = OK msg_hash) /\
  (length msg_hash <> 32%nat ->
   to_bytes32 (artifact_msg_hash msg_hash) =
     Raise (ValueError "msg_hash must be 32 bytes (keccak256).") /\
   to_bytes32 (hex msg_hash) =
     Raise (ValueError "msg_hash must be 32 bytes (keccak256).")) /\
  (forall text b, to_bytes32 text = OK b -> length b = 32%nat).
Proof.
  assert (Hart : to_bytes32 (artifact_msg_hash msg_hash) = to_bytes32 (hex msg_hash)).
  { assert (Hp : prefix "0x" (artifact_msg_hash msg_hash) = true)
      by (unfold artifact_msg_hash; cbn [append prefix];
          destruct (ascii_dec "0" "0"); [|congruence];
          destruct (ascii_dec "x" "x"); [|congruence];
          destruct (hex msg_hash); reflexivity).
    unfold to_bytes32. rewrite Hp, hex_no_prefix. reflexivity. }
  assert (Hrun : to_bytes32 (hex msg_hash) =
                 if negb (Nat.eqb (length msg_hash) 32)
                 then Raise (ValueError "msg_hash must be 32 bytes (keccak256).")
                 else OK msg_hash).
  { unfold to_bytes32. rewrite hex_no_prefix, fromhex_hex. reflexivity. }
  split; [|split].
  - intros Hlen. rewrite Hart, Hrun, Hlen. split; reflexivity.
  - intros Hlen. rewrite Hart, Hrun.
    destruct (Nat.eqb_spec (length msg_hash) 32); [contradiction|]. split; reflexivity.
  - intros text b. unfold to_bytes32.
    destruct (fromhex (if prefix "0x" text then drop2 text else text)) as [b0|e];
      cbn [bind]; [|discriminate].
    destruct (Nat.eqb_spec (length b0) 32) as [E|E]; cbn [negb]; [|discriminate].
    intros H. injection H as <-. exact E.
Qed.

(** * Concrete runs of the further properties *)

Lemma generator_2_order_11 : forall e, 0 < e < 11 - 1 -> 2 ^ e mod 11 <> 1.
Proof. apply order_check_sound. vm_compute. reflexivity. Qed.

Lemma reconstruct_secret_succeeds_iff_witness :
  2 <= 11 /\ reconstruct_secret 11 [(1, 4); (2, 8); (3, 3)] (Some 3) = OK 2 /\
  0 <= 2 < 11.
Proof.
  split; [lia|]. split; [vm_compute; reflexivity|].
  apply (proj2 (reconstruct_secret_succeeds_iff 11 ltac:(lia)
                  [(1, 4); (2, 8); (3, 3)] (Some 3)) 2).
  vm_compute. reflexivity.
Defined.

Lemma reconstruct_secret_linear_witness :
  2 <= 11 /\
  map fst [(1, 4); (2, 8); (3, 3)] = map fst [(1, 0); (2, 1); (3, 8)] /\
  reconstruct_secret 11 [(1, 4); (2, 8); (3, 3)] None = OK 2 /\
  reconstruct_secret 11 [(1, 0); (2, 1); (3, 8)] None = OK 5 /\
  reconstruct_secret 11 (add_shares [(1, 4); (2, 8); (3, 3)] [(1, 0); (2, 1); (3, 8)]) None =
    OK ((2 + 5) mod 11).
Proof.
  split; [lia|]. split; [reflexivity|].
  split; [vm_compute; reflexivity|]. split; [vm_compute; reflexivity|].
  apply (reconstruct_secret_linear 11 ltac:(lia)
           [(1, 4); (2, 8); (3, 3)] [(1, 0); (2, 1); (3, 8)] 2 5 1);
    vm_compute; reflexivity.
Defined.

Lemma lagrange_interpolation_at_zero_correct_witness :
  Z.prime 11 /\ [7; 100; 3] <> [] /\ ~ In 0 [7; 100; 3] /\
  NoDup (map (fun v => v mod 11) [7; 100; 3]) /\
  (length [5; 3; 3] <= length [7; 100; 3])%nat /\
  _lagrange_interpolation_at_zero 11 [7; 100; 3] (map (_eval_poly 11 [5; 3; 3]) [7; 100; 3]) =
    OK (hd 0 [5; 3; 3] mod 11).
Proof.
  assert (Hz : ~ In 0 [7; 100; 3]) by (cbn; intuition discriminate).
  assert (Hnd : NoDup (map (fun v => v mod 11) [7; 100; 3])).
  { vm_compute. repeat constructor; cbn [In]; intuition discriminate. }
  split; [exact prime_11|]. split; [discriminate|]. split; [exact Hz|].
  split; [exact Hnd|]. split; [cbn; lia|].
  apply (lagrange_interpolation_at_zero_correct 11 prime_11 [5; 3; 3] [7; 100; 3]);
    [discriminate|exact Hz|exact Hnd|cbn; lia].
Defined.

Lemma reconstruct_secret_order_independent_witness :
  Z.prime 11 /\
  Permutation [(1, 0); (2, 1); (3, 8)] [(3, 8); (1, 0); (2, 1)] /\
  exists v,
    reconstruct_secret 11 [(1, 0); (2, 1); (3, 8)] None = OK v /\
    reconstruct_secret 11 [(3, 8); (1, 0); (2, 1)] None = OK v.
Proof.
  assert (Hperm : Permutation [(1, 0); (2, 1); (3, 8)] [(3, 8); (1, 0); (2, 1)])
    by exact (Permutation_sym (Permutation_cons_append [(1, 0); (2, 1)] (3, 8))).
  split; [exact prime_11|]. split; [exact Hperm|].
  apply (reconstruct_secret_order_independent 11 prime_11 _ _ Hperm).
  - discriminate.
  - cbn. intuition discriminate.
  - vm_compute. repeat constructor; cbn [In]; intuition discriminate.
Defined.

Lemma threshold_sign_composition_witness :
  2 <= 11 /\
  threshold_sign 11 2 Keccak.keccak256 [(1, 4); (12, 8)] (text "hello") true None (const_rng 0) =
    (Raise (ValueError "Reconstructed secret out of range."), const_rng 0).
Proof.
  split; [lia|].
  apply (threshold_sign_composition 11 2 Keccak.keccak256 ltac:(lia)
           [(1, 4); (12, 8)] (text "hello") true None (const_rng 0)).
  - discriminate.
  - vm_compute. reflexivity.
Defined.

Lemma threshold_sign_single_share_witness :
  2 <= 11 /\ 3 <> 0 /\ 22 mod 11 = 0 /\
  threshold_sign 11 2 Keccak.keccak256 [(3, 22)] (text "hello") true None (const_rng 0) =
    (Raise (ValueError "Reconstructed secret out of range."), const_rng 0).
Proof.
  split; [lia|]. split; [lia|]. split; [reflexivity|].
  apply (threshold_sign_single_share 11 2 Keccak.keccak256 ltac:(lia)
           3 22 (text "hello") true (const_rng 0)); [lia|reflexivity].
Defined.

Lemma sign_message_cases_witness :
  Z.prime 11 /\ 2 < 11 /\ 11 <= 2 ^ 256 /\ 2 mod 11 <> 0 /\ 0 < 7 < 11 /\
  encodable (text "repeatable") /\
  exists r s,
    sign_message 11 2 Keccak.keccak256 7 (text "repeatable") false (const_rng 4) =
      (OK (r, s), mkRng (draws (const_rng 4)) (S (cursor (const_rng 4)))) /\
    0 < r < 11 /\ 0 <= s <= 11 - 2.
Proof.
  split; [exact prime_11|]. split; [lia|]. split; [lia|].
  split; [vm_compute; discriminate|]. split; [lia|]. split; [reflexivity|].
  apply (sign_message_cases 11 2 Keccak.keccak256 prime_11 ltac:(lia) ltac:(lia)
           ltac:(vm_compute; discriminate) 7 (text "repeatable") false (const_rng 4));
    [lia|reflexivity].
Defined.

Lemma keypair_signature_verifies_witness :
  Z.prime 11 /\ 2 < 11 /\ 11 <= 2 ^ 256 /\ 2 mod 11 <> 0 /\
  encodable (text "hello") /\
  exists priv pub r s g1 g2,
    generate_keypair 11 2 (const_rng 4) = (OK (priv, pub), g1) /\
    sign_message 11 2 Keccak.keccak256 priv (text "hello") true g1 = (OK (r, s), g2) /\
    verify_signature 11 2 Keccak.keccak256 pub (text "hello") r s = OK (negb (s =? 0)).
Proof.
  split; [exact prime_11|]. split; [lia|]. split; [lia|].
  split; [vm_compute; discriminate|]. split; [reflexivity|].
  apply (keypair_signature_verifies 11 2 Keccak.keccak256 prime_11 ltac:(lia)
           ltac:(lia) ltac:(vm_compute; discriminate) (text "hello") true (const_rng 4)).
  reflexivity.
Defined.

Lemma dealt_shares_sign_for_secret_witness :
  Z.prime 11 /\ 2 < 11 /\ 11 <= 2 ^ 256 /\ 2 mod 11 <> 0 /\
  0 < 7 < 11 /\ 1 <= 3 <= 5 /\ 5 <= 11 /\
  exists shares g0' pub,
    generate_shares 11 7 5 3 (const_rng 2) = (OK shares, g0') /\
    pubkey_from_secret 11 2 7 = OK pub /\
    forall subset require_t message deterministic g,
      NoDup subset -> incl subset shares -> 3 <= len subset ->
      (forall rt, require_t = Some rt -> rt <= len subset) ->
      encodable message ->
      exists r s g',
        threshold_sign 11 2 Keccak.keccak256 subset message deterministic require_t g =
          (OK (r, s, Keccak.keccak256 (utf8 message)), g') /\
        sign_message 11 2 Keccak.keccak256 7 message deterministic g = (OK (r, s), g') /\
        verify_signature 11 2 Keccak.keccak256 pub message r s = OK (negb (s =? 0)).
Proof.
  split; [exact prime_11|]. split; [lia|]. split; [lia|].
  split; [vm_compute; discriminate|]. split; [lia|]. split; [lia|]. split; [lia|].
  apply (dealt_shares_sign_for_secret 11 2 Keccak.keccak256 prime_11 ltac:(lia)
           ltac:(lia) ltac:(vm_compute; discriminate) 7 5 3 (const_rng 2)); lia.
Defined.

Lemma nonce_reuse_relation_witness :
  Z.prime 11 /\ 2 < 11 /\ 11 <= 2 ^ 256 /\ 2 mod 11 <> 0 /\ 0 < 7 < 11 /\
  encodable (text "A") /\ encodable (text "B") /\
  exists r s1 s2,
    fst (sign_message 11 2 Keccak.keccak256 7 (text "A") false (const_rng 4)) = OK (r, s1) /\
    fst (sign_message 11 2 Keccak.keccak256 7 (text "B") false (const_rng 4)) = OK (r, s2) /\
    (s1 - s2) mod (11 - 1) =
    ((challenge_of 11 Keccak.keccak256 r (text "A") -
      challenge_of 11 Keccak.keccak256 r (text "B")) * 7)
      mod (11 - 1).
Proof.
  split; [exact prime_11|]. split; [lia|]. split; [lia|].
  split; [vm_compute; discriminate|]. split; [lia|].
  split; [reflexivity|]. split; [reflexivity|].
  apply (nonce_reuse_relation 11 2 Keccak.keccak256 prime_11 ltac:(lia) ltac:(lia)
           ltac:(vm_compute; discriminate) 7 (text "A") (text "B") (const_rng 4));
    [lia|reflexivity|reflexivity].
Defined.

Lemma verify_signature_scalar_unique_witness :
  Z.prime 11 /\ 2 < 11 /\ 11 <= 2 ^ 256 /\ 2 mod 11 <> 0 /\
  (forall e, 0 < e < 11 - 1 -> 2 ^ e mod 11 <> 1) /\
  verify_signature 11 2 Keccak.keccak256 7 (text "repeatable") 6 4 = OK true /\
  5 <> 4 /\
  verify_signature 11 2 Keccak.keccak256 7 (text "repeatable") 6 5 = OK false.
Proof.
  assert (Hv : verify_signature 11 2 Keccak.keccak256 7 (text "repeatable") 6 4 = OK true)
    by (vm_compute; reflexivity).
  split; [exact prime_11|]. split; [lia|]. split; [lia|].
  split; [vm_compute; discriminate|]. split; [exact generator_2_order_11|].
  split; [exact Hv|]. split; [lia|].
  apply (verify_signature_scalar_unique 11 2 Keccak.keccak256 prime_11 ltac:(lia)
           ltac:(lia) ltac:(vm_compute; discriminate) generator_2_order_11
           7 (text "repeatable") 6 4 Hv 5).
  lia.
Defined.

Lemma pubkey_from_secret_injective_witness :
  Z.prime 11 /\ 2 < 11 /\ 2 mod 11 <> 0 /\
  (forall e, 0 < e < 11 - 1 -> 2 ^ e mod 11 <> 1) /\
  pubkey_from_secret 11 2 7 = OK 7 /\ 7 = 7.
Proof.
  assert (Hk : pubkey_from_secret 11 2 7 = OK 7) by (vm_compute; reflexivity).
  split; [exact prime_11|]. split; [lia|]. split; [vm_compute; discriminate|].
  split; [exact generator_2_order_11|]. split; [exact Hk|].
  exact (pubkey_from_secret_injective 11 2 prime_11 ltac:(lia)
           ltac:(vm_compute; discriminate) generator_2_order_11 7 7 7 Hk Hk).
Defined.

(** * Malformed shares and unverifiable signatures *)

Section Malformed.

Variable PRIME : Z.
Variable GENERATOR : Z.
Variable keccak : list byte -> list byte.
Hypothesis PRIME_prime : Z.prime PRIME.
Hypothesis PRIME_odd : 2 < PRIME.

(** X19: two shares whose x-coordinates are non-zero and different as
    integers but equal modulo [PRIME] pass the coordinate checks; whatever
    their values, [reconstruct_secret] returns 0 for them and
    [threshold_sign] raises the out-of-range error. *)
Theorem congruent_coordinates_give_zero (x1 y1 x2 y2 : Z) (message : str)
    (deterministic : bool) (g : rng) :
  x1 <> 0 -> x2 <> 0 -> x1 <> x2 -> x1 mod PRIME = x2 mod PRIME ->
  reconstruct_secret PRIME [(x1, y1); (x2, y2)] None = OK 0 /\
  threshold_sign PRIME GENERATOR keccak [(x1, y1); (x2, y2)] message deterministic None g =
    (Raise (ValueError "Reconstructed secret out of range."), g).
Proof.
  intros H1 H2 Hne E.
  pose proof (coinciding_shares_reconstruct_zero PRIME PRIME_prime x1 y1 x2 y2
                PRIME_odd H1 H2 Hne E) as Hrec.
  split; [exact Hrec|].
  destruct (threshold_sign_steps PRIME GENERATOR keccak ltac:(lia)
              [(x1, y1); (x2, y2)] message deterministic None g) as [_ Hcomp].
  destruct Hcomp as (_ & Hzero & _); [discriminate|].
  exact (Hzero Hrec).
Qed.

Hypothesis PRIME_fits : PRIME <= 2 ^ 256.
Hypothesis GENERATOR_unit : GENERATOR mod PRIME <> 0.

(** X20: signing can return [s = 0].  For every message that has UTF-8
    bytes and every nonce
    [k] in [[1, PRIME - 2]] whose challenge is coprime to [PRIME - 1], there
    is a private key in range for which [sign_message], drawing [k], returns
    [(r, 0)]; [verify_signature] rejects that signature under the matching
    public key. *)
Theorem zero_scalar_signature_exists (message : str) (k : Z) :
  encodable message ->
  1 <= k <= PRIME - 2 ->
  Z.gcd (challenge_of PRIME keccak (GENERATOR ^ k mod PRIME) message) (PRIME - 1) = 1 ->
  exists priv g pub,
    0 < priv < PRIME /\
    pubkey_from_secret PRIME GENERATOR priv = OK pub /\
    fst (sign_message PRIME GENERATOR keccak priv message false g) =
      OK (GENERATOR ^ k mod PRIME, 0) /\
    verify_signature PRIME GENERATOR keccak pub message (GENERATOR ^ k mod PRIME) 0 =
      OK false.
Proof.
  intros He Hk Hgcd.
  destruct (sign_message_scalar_can_vanish PRIME GENERATOR keccak PRIME_prime PRIME_odd
              PRIME_fits GENERATOR_unit message k He Hk Hgcd)
    as (priv & g & Hp & _ & Es).
  exists priv, g, (GENERATOR ^ priv mod PRIME).
  split; [exact Hp|]. split; [|split; [exact Es|]].
  - unfold pubkey_from_secret.
    rewrite (proj2 (range_check_true 0 priv PRIME) Hp). apply pow3_nonneg; lia.
  - unfold verify_signature.
    destruct (negb ((0 <? GENERATOR ^ priv mod PRIME) && (GENERATOR ^ priv mod PRIME <? PRIME)));
      [reflexivity|].
    destruct (negb ((0 <? GENERATOR ^ k mod PRIME) && (GENERATOR ^ k mod PRIME <? PRIME)));
      [reflexivity|].
    reflexivity.
Qed.

End Malformed.

Lemma congruent_coordinates_give_zero_witness :
  Z.prime 11 /\ 2 < 11 /\ 1 <> 0 /\ 12 <> 0 /\ 1 <> 12 /\ 1 mod 11 = 12 mod 11 /\
  reconstruct_secret 11 [(1, 4); (12, 8)] None = OK 0.
Proof.
  split; [exact prime_11|]. split; [lia|]. split; [lia|]. split; [lia|].
  split; [lia|]. split; [reflexivity|].
  apply (congruent_coordinates_give_zero 11 2 Keccak.keccak256 prime_11 ltac:(lia)
           1 4 12 8 (text "hello") true (const_rng 0)); (lia || reflexivity).
Defined.

Lemma zero_scalar_signature_exists_witness :
  Z.prime 11 /\ 2 < 11 /\ 11 <= 2 ^ 256 /\ 2 mod 11 <> 0 /\
  encodable (text "hello") /\ 1 <= 4 <= 11 - 2 /\
  Z.gcd (challenge_of 11 Keccak.keccak256 (2 ^ 4 mod 11) (text "hello")) (11 - 1) = 1 /\
  exists priv g pub,
    0 < priv < 11 /\
    pubkey_from_secret 11 2 priv = OK pub /\
    fst (sign_message 11 2 Keccak.keccak256 priv (text "hello") false g) = OK (2 ^ 4 mod 11, 0) /\
    verify_signature 11 2 Keccak.keccak256 pub (text "hello") (2 ^ 4 mod 11) 0 = OK false.
Proof.
  split; [exact prime_11|]. split; [lia|]. split; [lia|].
  split; [vm_compute; discriminate|]. split; [reflexivity|]. split; [lia|].
  split; [vm_compute; reflexivity|].
  apply (zero_scalar_signature_exists 11 2 Keccak.keccak256 prime_11 ltac:(lia)
           ltac:(lia) ltac:(vm_compute; discriminate) (text "hello") 4);
    [reflexivity|lia|vm_compute; reflexivity].
Defined.

Lemma generate_shares_argument_checks_witness :
  ~ (1 <= 4 <= 3) /\
  generate_shares 11 5 3 4 (const_rng 2) =
    (Raise (ValueError "Require 1 <= t <= n."), const_rng 2).
Proof.
  split; [lia|].
  apply (generate_shares_argument_checks 11 5 3 4 (const_rng 2)). lia.
Defined.

Lemma generate_keypair_pair_witness :
  2 < 11 /\
  generate_keypair 11 2 (const_rng 4) = (OK (5, 10), mkRng (draws (const_rng 4)) 1).
Proof.
  split; [lia|].
  apply (generate_keypair_pair 11 2 (const_rng 4)). lia.
Defined.

Lemma to_bytes32_round_trip_witness :
  length (Keccak.keccak256 (list_byte_of_string "hello")) = 32%nat /\
  to_bytes32 (artifact_msg_hash (Keccak.keccak256 (list_byte_of_string "hello"))) =
    OK (Keccak.keccak256 (list_byte_of_string "hello")).
Proof.
  split; [vm_compute; reflexivity|].
  apply (to_bytes32_round_trip (Keccak.keccak256 (list_byte_of_string "hello"))).
  vm_compute. reflexivity.
Defined.
